(** * mongo-object [src/util.ts]: key paths, the sanitizer and the builder

    A shallow embedding of the functions of [src/util.ts] and the
    properties the specification states about them.

    JavaScript strings are lists of code units ([list ascii], code units
    0..255); JavaScript values are the inductive type [value]; an object's
    own enumerable properties are an association list in the order
    [Object.keys] lists them.  Only own data properties are modelled: the
    theorems that follow a key into a value hold for keys that name no
    inherited or built-in member ([__proto__], [constructor], [length],
    ...), which [plain_walk] and [plain_keys] say.  The file is a module,
    so its code runs in strict mode: assigning a property of a primitive
    throws. *)

From Stdlib Require Import Ascii String List ZArith NArith Bool Lia.
Import ListNotations.

Local Open Scope list_scope.

(** ** Strings *)

Definition jsstring := list ascii.

Definition str (s : string) : jsstring := list_ascii_of_string s.

Fixpoint streqb (a b : jsstring) : bool :=
  match a, b with
  | [], [] => true
  | x :: a', y :: b' => Ascii.eqb x y && streqb a' b'
  | _, _ => false
  end.

Definition strlen (s : jsstring) : Z := Z.of_nat (length s).

(** [String.prototype.substring(start, end)]: both indices are clamped to
    [0, length] and swapped when [start > end]. *)
Definition js_substring (s : jsstring) (a b : Z) : jsstring :=
  let a' := Z.max 0 (Z.min a (strlen s)) in
  let b' := Z.max 0 (Z.min b (strlen s)) in
  let lo := Z.min a' b' in
  let hi := Z.max a' b' in
  firstn (Z.to_nat (hi - lo)) (skipn (Z.to_nat lo) s).

(** A relative index of [slice]: negative counts from the end. *)
Definition rel_index (len x : Z) : Z :=
  if (x <? 0)%Z then Z.max (len + x) 0 else Z.min x len.

(** [String.prototype.slice(start, end)]. *)
Definition js_slice (s : jsstring) (a b : Z) : jsstring :=
  let lo := rel_index (strlen s) a in
  let hi := rel_index (strlen s) b in
  firstn (Z.to_nat (hi - lo)) (skipn (Z.to_nat lo) s).

(** [String.prototype.slice(start)]: the end defaults to the length. *)
Definition js_slice_from (s : jsstring) (a : Z) : jsstring :=
  js_slice s a (strlen s).

Definition dot : ascii := "."%char.
Definition dollar : ascii := "$"%char.
Definition lbracket : ascii := "["%char.
Definition rbracket : ascii := "]"%char.

(** ** genericKeyAffectsOtherGenericKey (util.ts, lines 93-110) *)

Definition genericKeyAffectsOtherGenericKey (key affectedKey : jsstring) : bool :=
  if streqb affectedKey key then true
  else if streqb (js_substring affectedKey 0 (strlen key + 1)) (key ++ [dot])
  then true
  else
    let lastTwo := js_slice_from key (-2) in
    if streqb lastTwo [dot; dollar] && streqb (js_slice key 0 (-2)) affectedKey
    then true
    else false.

(** ** makeKeyGeneric (util.ts, lines 218-221)

    The regular expression is [/\.([0-9]+|\$\[[^\]]*\])(?=\.|$)/g]. *)

Definition is_digit (c : ascii) : bool :=
  let n := nat_of_ascii c in (48 <=? n)%nat && (n <=? 57)%nat.

Definition not_rbracket (c : ascii) : bool := negb (Ascii.eqb c rbracket).

(** The longest prefix whose code units satisfy [p], and what follows. *)
Fixpoint span (p : ascii -> bool) (s : jsstring) : jsstring * jsstring :=
  match s with
  | [] => ([], [])
  | c :: t =>
      if p c then let (a, b) := span p t in (c :: a, b) else ([], s)
  end.

(** The lookahead [(?=\.|$)]: a dot comes next, or the input ends. *)
Definition lookahead (s : jsstring) : bool :=
  match s with
  | [] => true
  | c :: _ => Ascii.eqb c dot
  end.

(** The alternative [[0-9]+] followed by the lookahead, tried on what
    comes after the dot: the input left after the digits.  The run is
    greedy, and giving digits back gains nothing: a shorter run is
    followed by a digit, where the lookahead fails. *)
Definition match_digits (r : jsstring) : option jsstring :=
  let (ds, r1) := span is_digit r in
  if negb (Nat.eqb (length ds) 0) && lookahead r1 then Some r1 else None.

(** The alternative [\$\[[^\]]*\]] followed by the lookahead: [[^\]]*]
    runs to the first closing bracket and can stop nowhere else. *)
Definition match_bracket (r : jsstring) : option jsstring :=
  match r with
  | c1 :: c2 :: r2 =>
      if Ascii.eqb c1 dollar && Ascii.eqb c2 lbracket then
        let (_, r3) := span not_rbracket r2 in
        match r3 with
        | c3 :: r4 =>
            if Ascii.eqb c3 rbracket && lookahead r4 then Some r4 else None
        | [] => None
        end
      else None
  | _ => None
  end.

(** One attempt of the regular expression at the start of [s]: the input
    left after the match, or [None]. *)
Definition match_at (s : jsstring) : option jsstring :=
  match s with
  | c :: r =>
      if Ascii.eqb c dot then
        match match_digits r with
        | Some r1 => Some r1
        | None => match_bracket r
        end
      else None
  | [] => None
  end.

(** [replace] with the [g] flag: scan from the left; at a match emit [.$]
    and go on after it, otherwise copy one code unit.  A match is never
    empty, so [length s] steps of fuel are enough. *)
Fixpoint replace_fuel (fuel : nat) (s : jsstring) : jsstring :=
  match fuel with
  | O => s
  | S fuel' =>
      match s with
      | [] => []
      | c :: t =>
          match match_at s with
          | Some r => dot :: dollar :: replace_fuel fuel' r
          | None => c :: replace_fuel fuel' t
          end
      end
  end.

Definition replace_generic (s : jsstring) : jsstring :=
  replace_fuel (length s) s.

(** ** Values *)

#[local] Unset Elimination Schemes.

(** A JavaScript value.  Numbers are integers: no function here looks at
    a number's value.  An array is its [length] and its own properties
    (the elements under their index keys, a hole being an absent index);
    [VObj] is a plain object (prototype [Object.prototype]); [VExotic] is
    any other object (a [Map], a [Date], a class instance), with the tag
    [Object.prototype.toString] gives it, its size when it is a [Map] or
    a [Set], and its own properties.  A well-formed object holds each
    key once. *)
Inductive value : Type :=
| VUndefined
| VNull
| VBool (b : bool)
| VNum (n : Z)
| VStr (s : jsstring)
| VArr (len : N) (props : list (jsstring * value))
| VObj (props : list (jsstring * value))
| VExotic (tag : jsstring) (size : N) (props : list (jsstring * value)).

#[local] Set Elimination Schemes.

(** Induction on a value, with the hypothesis for every property value
    of an object. *)
Definition value_ind (P : value -> Prop)
    (Hundef : P VUndefined) (Hnull : P VNull)
    (Hbool : forall b, P (VBool b)) (Hnum : forall n, P (VNum n))
    (Hstr : forall s, P (VStr s))
    (Harr : forall len ps, Forall (fun kv => P (snd kv)) ps -> P (VArr len ps))
    (Hobj : forall ps, Forall (fun kv => P (snd kv)) ps -> P (VObj ps))
    (Hexo : forall tag size ps,
        Forall (fun kv => P (snd kv)) ps -> P (VExotic tag size ps))
  : forall v, P v :=
  fix go (v : value) : P v :=
    let all :=
      fix all (ps : list (jsstring * value))
        : Forall (fun kv => P (snd kv)) ps :=
        match ps with
        | [] => Forall_nil _
        | kv :: t => Forall_cons kv (go (snd kv)) (all t)
        end in
    match v with
    | VUndefined => Hundef
    | VNull => Hnull
    | VBool b => Hbool b
    | VNum n => Hnum n
    | VStr s => Hstr s
    | VArr len ps => Harr len ps (all ps)
    | VObj ps => Hobj ps (all ps)
    | VExotic tag size ps => Hexo tag size ps (all ps)
    end.

Definition props_t := list (jsstring * value).

(** *** The property store *)

Fixpoint prop_lookup (k : jsstring) (ps : props_t) : option value :=
  match ps with
  | [] => None
  | (k', v) :: t => if streqb k' k then Some v else prop_lookup k t
  end.

(** Reading an absent property gives [undefined]. *)
Definition prop_get (k : jsstring) (ps : props_t) : value :=
  match prop_lookup k ps with
  | Some v => v
  | None => VUndefined
  end.

Definition has_key (k : jsstring) (ps : props_t) : bool :=
  match prop_lookup k ps with
  | Some _ => true
  | None => false
  end.

Fixpoint digits_value (acc : N) (s : jsstring) : N :=
  match s with
  | [] => acc
  | c :: t => digits_value (acc * 10 + N.of_nat (nat_of_ascii c - 48)) t
  end.

(** An array index: a canonical numeric string (digits, no leading zero
    but for ["0"]) whose value is below [2^32 - 1]. *)
Definition array_index (k : jsstring) : option N :=
  match k with
  | [] => None
  | c :: t =>
      if forallb is_digit k
         && (negb (Ascii.eqb c "0"%char) || Nat.eqb (length t) 0)
         && (length k <=? 10)%nat
      then
        let n := digits_value 0 k in
        if (n <? 4294967295)%N then Some n else None
      else None
  end.

(** Where a new key goes in the order of [Object.keys]: array indices
    first, ascending, then the other keys in insertion order. *)
Fixpoint insert_index (n : N) (k : jsstring) (v : value) (ps : props_t)
  : props_t :=
  match ps with
  | [] => [(k, v)]
  | (k', v') :: t =>
      match array_index k' with
      | Some n' =>
          if (n <? n')%N then (k, v) :: ps
          else (k', v') :: insert_index n k v t
      | None => (k, v) :: ps
      end
  end.

Fixpoint prop_replace (k : jsstring) (v : value) (ps : props_t) : props_t :=
  match ps with
  | [] => []
  | (k', v') :: t =>
      if streqb k' k then (k', v) :: t else (k', v') :: prop_replace k v t
  end.

Definition prop_set (k : jsstring) (v : value) (ps : props_t) : props_t :=
  if has_key k ps then prop_replace k v ps
  else
    match array_index k with
    | Some n => insert_index n k v ps
    | None => ps ++ [(k, v)]
    end.

Definition prop_delete (k : jsstring) (ps : props_t) : props_t :=
  filter (fun kv => negb (streqb (fst kv) k)) ps.

(** *** Property access on a value *)

Definition is_object (v : value) : bool :=
  match v with
  | VArr _ _ | VObj _ | VExotic _ _ _ => true
  | _ => false
  end.

Definition own_entries (v : value) : props_t :=
  match v with
  | VArr _ ps | VObj ps | VExotic _ _ ps => ps
  | _ => []
  end.

(** [Object.keys]. *)
Definition Object_keys (v : value) : list jsstring := map fst (own_entries v).

(** [o[k] = v] on an object, for a key the object stores as an own data
    property ([own_key], [plain_key]): an index at or past an array's
    length moves the length up. *)
Definition store (k : jsstring) (v : value) (o : value) : value :=
  match o with
  | VObj ps => VObj (prop_set k v ps)
  | VArr len ps =>
      VArr (match array_index k with
            | Some n => N.max len (n + 1)
            | None => len
            end)
           (prop_set k v ps)
  | VExotic t sz ps => VExotic t sz (prop_set k v ps)
  | _ => o
  end.

(** The object whose property [k] now holds [child], a child that was
    changed in place; the array length stays. *)
Definition with_child (k : jsstring) (child : value) (o : value) : value :=
  match o with
  | VObj ps => VObj (prop_replace k child ps)
  | VArr len ps => VArr len (prop_replace k child ps)
  | VExotic t sz ps => VExotic t sz (prop_replace k child ps)
  | _ => o
  end.

(** [delete o[k]]: an array keeps its length. *)
Definition delete_key (k : jsstring) (o : value) : value :=
  match o with
  | VObj ps => VObj (prop_delete k ps)
  | VArr len ps => VArr len (prop_delete k ps)
  | VExotic t sz ps => VExotic t sz (prop_delete k ps)
  | _ => o
  end.

(** [cur[k]], for a key that names no inherited or built-in member of
    [cur] ([own_key]): [None] is the TypeError of reading a property of
    [null] or [undefined]; a string has its code units under their
    indices. *)
Definition get_prop (cur : value) (k : jsstring) : option value :=
  match cur with
  | VUndefined | VNull => None
  | VBool _ | VNum _ => Some VUndefined
  | VStr s =>
      match array_index k with
      | Some n =>
          match nth_error s (N.to_nat n) with
          | Some c => Some (VStr [c])
          | None => Some VUndefined
          end
      | None => Some VUndefined
      end
  | VArr _ ps | VObj ps | VExotic _ _ ps => Some (prop_get k ps)
  end.

(** [cur[k] = v]: [None] is the TypeError that module code (strict mode)
    raises when [cur] is not an object. *)
Definition set_prop (cur : value) (k : jsstring) (v : value) : option value :=
  if is_object cur then Some (store k v cur) else None.

(** ** The sanitizer (util.ts, lines 11-45, 112-118, 177-203) *)

Definition Array_isArray (v : value) : bool :=
  match v with
  | VArr _ _ => true
  | _ => false
  end.

Definition isBasicObject (v : value) : bool :=
  match v with
  | VObj _ => true
  | _ => false
  end.

Definition isNullUndefinedOrEmptyString (v : value) : bool :=
  match v with
  | VUndefined | VNull => true
  | VStr s => Nat.eqb (length s) 0
  | _ => false
  end.

Definition is_empty_string (v : value) : bool :=
  match v with
  | VStr s => Nat.eqb (length s) 0
  | _ => false
  end.

Definition is_map_or_set (tag : jsstring) : bool :=
  streqb tag (str "[object Map]") || streqb tag (str "[object Set]").

(** [isEmpty]: past the [Map]/[Set] test both remaining paths (the
    [Object.keys] count of a prototype object, the [for..in] loop with
    its own-property test) ask whether there is an own enumerable key. *)
Definition isEmpty (v : value) : bool :=
  match v with
  | VUndefined | VNull => true
  | VArr len _ => (len =? 0)%N
  | VStr s => Nat.eqb (length s) 0
  | VExotic tag size ps =>
      if is_map_or_set tag then (size =? 0)%N
      else Nat.eqb (length ps) 0
  | VObj ps => Nat.eqb (length ps) 0
  | VBool _ | VNum _ => true
  end.

Definition new_doc (isArray : bool) : value :=
  if isArray then VArr 0 [] else VObj [].

(** One turn of the [forEach] of [cleanNulls], given the two recursive
    results for this value. *)
Definition clean_entry (keepEmptyStrings : bool) (key : jsstring)
    (val asObject asArray : value) (newDoc : value) : value :=
  if negb (Array_isArray val) && isBasicObject val then
    if negb (isEmpty asObject) then store key asObject newDoc else newDoc
  else if Array_isArray val then
    if negb (isEmpty asArray) then store key asArray newDoc else newDoc
  else if negb (isNullUndefinedOrEmptyString val) then store key val newDoc
  else if keepEmptyStrings && is_empty_string val then store key val newDoc
  else newDoc.

(** [cleanNulls].  The [forEach] over [Object.keys(doc)] reads
    [doc[key]] for every key: it visits the entries of [doc] in order
    (see [entries_by_key]).  [doc] is an object by its type; a value that
    is none has no entry here. *)
Fixpoint cleanNulls (doc : value) (isArray keepEmptyStrings : bool)
  {struct doc} : value :=
  let step := fun (newDoc : value) (kv : jsstring * value) =>
    clean_entry keepEmptyStrings (fst kv) (snd kv)
      (cleanNulls (snd kv) false keepEmptyStrings)
      (cleanNulls (snd kv) true keepEmptyStrings) newDoc in
  match doc with
  | VArr _ ps | VObj ps | VExotic _ _ ps => fold_left step ps (new_doc isArray)
  | _ => new_doc isArray
  end.

(** ** reportNulls (util.ts, lines 55-77) *)

Definition array_length (v : value) : N :=
  match v with
  | VArr len _ => len
  | _ => 0%N
  end.

Definition is_null_like (keepEmptyStrings : bool) (val : value) : bool :=
  match val with
  | VNull => true
  | VUndefined => true
  | _ =>
      (negb keepEmptyStrings && is_empty_string val)
      || (Array_isArray val
          && (array_length (cleanNulls val true keepEmptyStrings) =? 0)%N)
  end.

Definition reportNulls (flatDoc : value) (keepEmptyStrings : bool) : value :=
  fold_left
    (fun nulls key =>
       let val := prop_get key (own_entries flatDoc) in
       if is_null_like keepEmptyStrings val then store key (VStr []) nulls
       else nulls)
    (Object_keys flatDoc) (VObj []).

(** ** expandKey (util.ts, lines 248-274) *)

(** [String.prototype.split] on a one-character separator. *)
Fixpoint split_on (sep : ascii) (s : jsstring) : list jsstring :=
  match s with
  | [] => [[]]
  | c :: t =>
      if Ascii.eqb c sep then [] :: split_on sep t
      else
        match split_on sep t with
        | h :: r => (c :: h) :: r
        | [] => [[c]]
        end
  end.

(** White space as [parseInt] skips it, among the code units 0..255. *)
Definition is_whitespace (c : ascii) : bool :=
  let n := nat_of_ascii c in
  ((9 <=? n) && (n <=? 13) || Nat.eqb n 32 || Nat.eqb n 160)%nat.

Fixpoint skip_whitespace (s : jsstring) : jsstring :=
  match s with
  | c :: t => if is_whitespace c then skip_whitespace t else s
  | [] => []
  end.

(** [parseInt(s, 10)]: [None] is [NaN]. *)
Definition parseInt (s : jsstring) : option Z :=
  let s1 := skip_whitespace s in
  let (neg, s2) :=
    match s1 with
    | c :: t =>
        if Ascii.eqb c "-"%char then (true, t)
        else if Ascii.eqb c "+"%char then (false, t)
        else (false, s1)
    | [] => (false, s1)
    end in
  let (ds, _) := span is_digit s2 in
  match ds with
  | [] => None
  | _ =>
      let n := Z.of_N (digits_value 0 ds) in
      Some (if neg then (- n)%Z else n)
  end.

Definition isNaN_parseInt (s : jsstring) : bool :=
  match parseInt s with
  | None => true
  | Some _ => false
  end.

(** The first four lines of the loop body: drop one closing bracket. *)
Definition strip_bracket (subkey : jsstring) : jsstring :=
  if streqb (js_slice_from subkey (-1)) [rbracket]
  then js_slice subkey 0 (-1)
  else subkey.

Inductive outcome : Type :=
| Returned
| Threw.

(** The container made for an unset slot. *)
Definition fresh_for (nextPiece : jsstring) : value :=
  if isNaN_parseInt nextPiece then VObj [] else VArr 0 [].

(** The loop of [expandKey] from index [i] on: [subkeys] are the pieces
    [i .. ln-1] and [current] is the variable of that name.  The result
    is how the call ended and [current] as the loop left it: an object
    is changed in place, so the parent holds the changed child. *)
Fixpoint expand_loop (val : value) (subkeys : list jsstring) (current : value)
  : outcome * value :=
  match subkeys with
  | [] => (Returned, current)
  | raw :: rest =>
      let subkey := strip_bracket raw in
      match rest with
      | [] =>
          match set_prop current subkey val with
          | None => (Threw, current)
          | Some cur1 =>
              match val with
              | VUndefined => (Returned, delete_key subkey cur1)
              | _ => (Returned, cur1)
              end
          end
      | nextPiece :: _ =>
          match get_prop current subkey with
          | None => (Threw, current)
          | Some slot =>
              let created :=
                match slot with
                | VUndefined => set_prop current subkey (fresh_for nextPiece)
                | _ => Some current
                end in
              match created with
              | None => (Threw, current)
              | Some cur1 =>
                  match get_prop cur1 subkey with
                  | None => (Threw, cur1)
                  | Some child =>
                      let (o, child') := expand_loop val rest child in
                      (o, with_child subkey child' cur1)
                  end
              end
          end
      end
  end.

Definition expandKey (val : value) (key : jsstring) (obj : value)
  : outcome * value :=
  expand_loop val (split_on lbracket key) obj.

(** ** makeKeyGeneric on any argument

    [null] unless the argument is a string. *)
Definition makeKeyGeneric (key : value) : value :=
  match key with
  | VStr s => VStr (replace_generic s)
  | _ => VNull
  end.

(** ** Containers left empty *)

Definition is_some {A} (o : option A) : bool :=
  match o with
  | Some _ => true
  | None => false
  end.

(** An array has an element when one of its keys is an array index. *)
Definition has_element (ps : props_t) : bool :=
  existsb (fun kv => is_some (array_index (fst kv))) ps.


(** A plain object with no own key, or an array of length zero or
    without an element. *)
Definition is_empty_container (c : value) : bool :=
  match c with
  | VObj ps => Nat.eqb (length ps) 0
  | VArr len ps => (len =? 0)%N || negb (has_element ps)
  | _ => false
  end.

(** No plain object or array below [v], at any depth, is empty.  Exotic
    objects are leaves of a document: the sanitizer never looks inside
    them. *)
Fixpoint no_empty_inside (v : value) : bool :=
  let ok := fun (kv : jsstring * value) =>
    negb (is_empty_container (snd kv)) && no_empty_inside (snd kv) in
  match v with
  | VArr _ ps | VObj ps => forallb ok ps
  | _ => true
  end.

(** The body of the [forEach] of [cleanNulls] as a function of the
    accumulator and the entry. *)
Definition clean_step (keepEmptyStrings : bool) (newDoc : value)
    (kv : jsstring * value) : value :=
  clean_entry keepEmptyStrings (fst kv) (snd kv)
    (cleanNulls (snd kv) false keepEmptyStrings)
    (cleanNulls (snd kv) true keepEmptyStrings) newDoc.

(** An array's length is zero exactly when it has no element. *)
Definition lengths_agree (v : value) : Prop :=
  match v with
  | VArr len ps => (len =? 0)%N = negb (has_element ps)
  | _ => True
  end.

(** What every result of [cleanNulls] is: a container of the kind asked
    for, with no empty container inside and its length in step. *)
Definition good_doc (isArray : bool) (v : value) : Prop :=
  Array_isArray v = isArray /\ isBasicObject v = negb isArray
  /\ no_empty_inside v = true /\ lengths_agree v.

(** What [cleanNulls] stores under a key. *)
Definition good_value (v : value) : Prop :=
  is_empty_container v = false /\ no_empty_inside v = true.

(** A piece of a key: it holds no opening bracket. *)
Definition no_lbracket (k : jsstring) : bool :=
  forallb (fun c => negb (Ascii.eqb c lbracket)) k.

(** The piece that follows the first one in the rest of a key: the
    [nextPiece] of the loop. *)
Definition next_piece (rest : jsstring) : jsstring :=
  hd [] (split_on lbracket rest).

Definition is_undefined (v : value) : bool :=
  match v with
  | VUndefined => true
  | _ => false
  end.

(** ** The documents of the examples *)

(** [{a: null, b: "", c: {d: null}, e: [null, 1]}]. *)
Definition example_doc : value :=
  VObj [(str "a", VNull);
        (str "b", VStr []);
        (str "c", VObj [(str "d", VNull)]);
        (str "e", VArr 2 [(str "0", VNull); (str "1", VNum 1)])].

(** [{a: null, b: "x", c: []}]. *)
Definition example_flat : value :=
  VObj [(str "a", VNull); (str "b", VStr (str "x")); (str "c", VArr 0 [])].

(** ** What the specification says of the replacement

    The definitions below follow the words of the specification; the
    theorems compare them with the functions above. *)

(** A token the replacement collapses: one or more digits, or [$[...]]
    with no closing bracket inside. *)
Definition is_token (tok : jsstring) : Prop :=
  (tok <> [] /\ forallb is_digit tok = true)
  \/ (exists body,
        tok = dollar :: lbracket :: body ++ [rbracket]
        /\ forallb not_rbracket body = true).

(** A run starts [s] and leaves [r]: a dot, a token, and then a dot or
    the end of the string. *)
Definition run_at (s r : jsstring) : Prop :=
  exists tok, is_token tok /\ s = dot :: tok ++ r /\ lookahead r = true.

(** [replaced s out]: [out] is [s] with every run, found from the left,
    replaced by [.$] and every other code unit kept. *)
Inductive replaced : jsstring -> jsstring -> Prop :=
| replaced_end : replaced [] []
| replaced_run (s r out : jsstring) :
    run_at s r -> replaced r out -> replaced s (dot :: dollar :: out)
| replaced_keep (c : ascii) (t out : jsstring) :
    (forall r, ~ run_at (c :: t) r) ->
    replaced t out -> replaced (c :: t) (c :: out).

(** A key path as its segments, joined by dots. *)
Fixpoint join_dots (segs : list jsstring) : jsstring :=
  match segs with
  | [] => []
  | [seg] => seg
  | seg :: rest => seg ++ dot :: join_dots rest
  end.

(** An array-index segment: digits, at least one. *)
Definition is_index_segment (seg : jsstring) : bool :=
  negb (Nat.eqb (length seg) 0) && forallb is_digit seg.

(** A positional-operator segment: [$[identifier]], the identifier
    without a closing bracket. *)
Definition is_positional_segment (seg : jsstring) : bool :=
  match seg with
  | c1 :: c2 :: r =>
      Ascii.eqb c1 dollar && Ascii.eqb c2 lbracket
      && (let (_, r3) := span not_rbracket r in streqb r3 [rbracket])
  | _ => false
  end.

Definition generic_segment (seg : jsstring) : jsstring :=
  if is_index_segment seg || is_positional_segment seg then [dollar] else seg.

(** The path the specification's data model describes: every index or
    positional segment replaced, the first one too. *)
Definition all_segments_generic (segs : list jsstring) : jsstring :=
  join_dots (map generic_segment segs).

(** The same with the first segment left as it is. *)
Definition later_segments_generic (segs : list jsstring) : jsstring :=
  match segs with
  | [] => []
  | first :: rest => join_dots (first :: map generic_segment rest)
  end.

(** A segment of a well-formed path holds no dot, and one that opens
    [$[] closes the bracket. *)
Definition well_formed_segment (seg : jsstring) : bool :=
  forallb (fun c => negb (Ascii.eqb c dot)) seg
  && match seg with
     | c1 :: c2 :: r =>
         negb (Ascii.eqb c1 dollar && Ascii.eqb c2 lbracket)
         || existsb (fun c => Ascii.eqb c rbracket) r
     | _ => true
     end.

(** ** Auxiliary definitions of the proofs *)

(** What follows the body of a [$[] whose match fails: nothing, or a
    closing bracket after which the lookahead fails. *)
Definition closes_badly (r3 : jsstring) : Prop :=
  match r3 with
  | [] => True
  | c :: r4 => c = rbracket /\ lookahead r4 = false
  end.

(** A segment's code units: anything but a dot. *)
Definition not_dot (c : ascii) : bool := negb (Ascii.eqb c dot).

(** The part of a joined path after its first segment. *)
Definition tail_dots (segs : list jsstring) : jsstring :=
  flat_map (fun seg => dot :: seg) segs.

(** The body of the [forEach] of [reportNulls]. *)
Definition report_step (flatDoc : value) (keep : bool) (nulls : value)
    (key : jsstring) : value :=
  let val := prop_get key (own_entries flatDoc) in
  if is_null_like keep val then store key (VStr []) nulls else nulls.

(** ** appendAffectedKey (util.ts, lines 79-85) *)

(** [affectedKey] is a string, [null] or [undefined] by its type. *)
Definition appendAffectedKey (affectedKey : value) (key : jsstring) : value :=
  if streqb key (str "$each") then affectedKey
  else
    match affectedKey with
    | VStr s =>
        if (0 <? length s)%nat then VStr (s ++ dot :: key) else VStr key
    | _ => VStr key
    end.

(** ** extractOp (util.ts, lines 88-91) *)

(** [String.prototype.indexOf] for one code unit: [-1] when absent. *)
Fixpoint indexOf (c : ascii) (s : jsstring) : Z :=
  match s with
  | [] => (-1)%Z
  | x :: t =>
      if Ascii.eqb x c then 0%Z
      else
        let i := indexOf c t in
        if (i <? 0)%Z then (-1)%Z else (i + 1)%Z
  end.

Definition extractOp (position : jsstring) : value :=
  let firstPositionPiece := js_slice position 0 (indexOf lbracket position) in
  if streqb (js_substring firstPositionPiece 0 1) [dollar]
  then VStr firstPositionPiece
  else VNull.

(** ** keyToPosition (util.ts, lines 223-233) *)

(** One turn of the [forEach]: the state is the index and [position]. *)
Definition position_step (wrapAll : bool) (st : nat * jsstring)
    (piece : jsstring) : nat * jsstring :=
  let (i, position) := st in
  (S i,
   if Nat.eqb i 0 && negb wrapAll then position ++ piece
   else position ++ lbracket :: piece ++ [rbracket]).

Definition keyToPosition (key : jsstring) (wrapAll : bool) : jsstring :=
  snd (fold_left (position_step wrapAll) (split_on dot key) (0%nat, [])).

(** ** Vocabulary of the further properties *)

(** Reading [v[k1][k2]...]: [None] is the TypeError of reading a
    property of [null] or [undefined]. *)
Fixpoint get_path (pieces : list jsstring) (v : value) : option value :=
  match pieces with
  | [] => Some v
  | k :: rest =>
      match get_prop v k with
      | Some child => get_path rest child
      | None => None
      end
  end.

(** A value [cleanNulls] drops where it stands: [null], [undefined], and
    the empty string unless empty strings are kept. *)
Definition is_dropped_leaf (keep : bool) (v : value) : bool :=
  isNullUndefinedOrEmptyString v && negb (keep && is_empty_string v).

(** No value below [v], at any depth reached through plain objects and
    arrays, is one that [cleanNulls] drops. *)
Fixpoint no_null_inside (keep : bool) (v : value) : bool :=
  let ok := fun (kv : jsstring * value) =>
    negb (is_dropped_leaf keep (snd kv)) && no_null_inside keep (snd kv) in
  match v with
  | VArr _ ps | VObj ps => forallb ok ps
  | _ => true
  end.

(** Whether [cleanNulls] keeps a key that holds [v], and what it stores
    under it. *)
Definition is_kept (keep : bool) (v : value) : bool :=
  match v with
  | VObj _ => negb (isEmpty (cleanNulls v false keep))
  | VArr _ _ => negb (isEmpty (cleanNulls v true keep))
  | _ => negb (is_dropped_leaf keep v)
  end.

Definition stored_value (keep : bool) (v : value) : value :=
  match v with
  | VObj _ => cleanNulls v false keep
  | VArr _ _ => cleanNulls v true keep
  | _ => v
  end.

(** A flat document: no value is a plain object. *)
Definition is_flat (ps : props_t) : bool :=
  forallb (fun kv => negb (isBasicObject (snd kv))) ps.

(** A piece in brackets. *)
Definition wrap_piece (piece : jsstring) : jsstring :=
  lbracket :: piece ++ [rbracket].

Definition starts_with_dollar (s : jsstring) : bool :=
  match s with
  | c :: _ => Ascii.eqb c dollar
  | [] => false
  end.

Definition no_dot (s : jsstring) : bool := forallb not_dot s.

(** Every suffix of a string. *)
Fixpoint suffixes (s : jsstring) : list jsstring :=
  match s with
  | [] => [[]]
  | _ :: t => s :: suffixes t
  end.

(** ** The order of the keys of a built object *)

(** [k] may come before [k'] in [Object.keys]: an index before a larger
    index or a name, a name before a name only. *)
Definition key_le (k k' : jsstring) : Prop :=
  match array_index k, array_index k' with
  | Some n, Some n' => (n <= n')%N
  | Some _, None => True
  | None, Some _ => False
  | None, None => True
  end.

Fixpoint ordered_keys (ks : list jsstring) : Prop :=
  match ks with
  | [] => True
  | k :: t => Forall (key_le k) t /\ ordered_keys t
  end.

(** The length an array has after stores under these keys, from [len]. *)
Fixpoint len_keys (len : N) (ks : list jsstring) : N :=
  match ks with
  | [] => len
  | k :: t =>
      len_keys (match array_index k with
                | Some n => N.max len (n + 1)
                | None => len
                end) t
  end.

(** An object as a sequence of stores leaves it: distinct keys in the
    order of [Object.keys], and for an array the length the keys give. *)
Definition built (v : value) : Prop :=
  NoDup (map fst (own_entries v))
  /\ ordered_keys (map fst (own_entries v))
  /\ match v with
     | VArr len ps => len = len_keys 0 (map fst ps)
     | _ => True
     end.

(** A value [cleanNulls] stores again as it is. *)
Definition settled (keep : bool) (v : value) : Prop :=
  is_kept keep v = true /\ stored_value keep v = v.

(** Storing the entries one after the other. *)
Definition store_all (ps : props_t) (acc : value) : value :=
  fold_left (fun acc kv => store (fst kv) (snd kv) acc) ps acc.

(** ** Keys that meet no built-in member

    [store] and [get_prop] are the own data properties of a value.  A
    value of the program also answers to the members it inherits and to
    the ones built into it ([constructor], [toString], an array's
    [length], ...), and an assignment to [__proto__] or to an array's
    [length] adds no property.  The predicates below delimit the keys
    and the documents on which neither happens; every theorem that
    follows a key into a value carries one of them as a hypothesis. *)

(** The string-keyed members of [Object.prototype]. *)
Definition object_prototype_names : list jsstring :=
  map str
    ["constructor"; "__defineGetter__"; "__defineSetter__";
     "hasOwnProperty"; "__lookupGetter__"; "__lookupSetter__";
     "isPrototypeOf"; "propertyIsEnumerable"; "toString"; "valueOf";
     "__proto__"; "toLocaleString"]%string.

(** A code unit of a member's name: an ASCII letter or an underscore. *)
Definition is_name_unit (c : ascii) : bool :=
  let n := nat_of_ascii c in
  ((65 <=? n) && (n <=? 90) || (97 <=? n) && (n <=? 122) || Nat.eqb n 95)%nat.

(** A key that is no member's name on any value: the members of the
    prototypes of objects, arrays, strings, numbers and booleans, and
    [length], are names of two or more letters and underscores. *)
Definition never_builtin (k : jsstring) : bool :=
  (length k <=? 1)%nat || negb (forallb is_name_unit k).

(** [cur[k]] is an own data property of [cur], or none at all: on a
    plain object [k] is no member of [Object.prototype]; on an array or
    a primitive [k] is no member's name whatever; nothing is known of
    what another object inherits. *)
Definition own_key (cur : value) (k : jsstring) : bool :=
  match cur with
  | VObj _ => negb (existsb (streqb k) object_prototype_names)
  | VExotic _ _ _ => false
  | _ => never_builtin k
  end.

(** The walk of [expandKey] over [pieces] from [cur] meets own data
    properties only: at every step of the loop the key is an [own_key]
    of the value the loop stands on, be it found or just made. *)
Fixpoint plain_walk (pieces : list jsstring) (cur : value) : bool :=
  match pieces with
  | [] => true
  | raw :: rest =>
      let subkey := strip_bracket raw in
      own_key cur subkey
      && match rest with
         | [] => true
         | nextPiece :: _ =>
             match get_prop cur subkey with
             | None => true
             | Some slot =>
                 plain_walk rest
                   (if is_undefined slot then fresh_for nextPiece else slot)
             end
         end
  end.

(** A key that [newDoc[key] = val] stores as an own property, on a new
    object and on a new array: not [__proto__], whose assignment runs
    the inherited setter, and not [length]. *)
Definition plain_key (k : jsstring) : bool :=
  negb (streqb k (str "__proto__")) && negb (streqb k (str "length")).

(** Every key of the document, at every depth, is a [plain_key]. *)
Fixpoint plain_keys (v : value) : bool :=
  match v with
  | VArr _ ps | VObj ps | VExotic _ _ ps =>
      forallb (fun kv => plain_key (fst kv) && plain_keys (snd kv)) ps
  | _ => true
  end.

(** * Proofs *)

(** ** Facts about strings *)

Lemma streqb_eq (a b : jsstring) : streqb a b = true <-> a = b.
Proof.
  revert b; induction a as [|x a IH]; intros [|y b]; simpl;
    try (split; [discriminate | congruence]); try tauto.
  rewrite andb_true_iff, Ascii.eqb_eq, IH.
  split; [intros [-> ->]; reflexivity | intros H; inversion H; auto].
Qed.

Lemma streqb_refl (a : jsstring) : streqb a a = true.
Proof. apply streqb_eq; reflexivity. Qed.

Lemma streqb_neq (a b : jsstring) : streqb a b = false <-> a <> b.
Proof.
  rewrite <- streqb_eq. destruct (streqb a b); split; congruence.
Qed.

Lemma js_substring_prefix (s : jsstring) (n : nat) :
  js_substring s 0 (Z.of_nat n) = firstn n s.
Proof.
  unfold js_substring, strlen.
  set (a' := Z.max 0 (Z.min 0 (Z.of_nat (length s)))).
  set (b' := Z.max 0 (Z.min (Z.of_nat n) (Z.of_nat (length s)))).
  assert (Ha : Z.min a' b' = 0%Z) by lia.
  assert (Hb : Z.to_nat (Z.max a' b' - Z.min a' b') = Nat.min n (length s))
    by lia.
  rewrite Hb, Ha. simpl skipn.
  destruct (Nat.le_gt_cases n (length s)) as [H|H].
  - rewrite Nat.min_l by lia. reflexivity.
  - rewrite Nat.min_r by lia. rewrite !firstn_all2 by lia. reflexivity.
Qed.

Lemma js_slice_last (s : jsstring) (n : nat) :
  (0 < n)%nat ->
  js_slice_from s (- Z.of_nat n) = skipn (length s - n) s.
Proof.
  intros Hn. unfold js_slice_from, js_slice, rel_index, strlen.
  replace (- Z.of_nat n <? 0)%Z with true by (symmetry; apply Z.ltb_lt; lia).
  replace (Z.of_nat (length s) <? 0)%Z with false
    by (symmetry; apply Z.ltb_ge; lia).
  rewrite Z.min_id.
  replace (Z.to_nat (Z.max (Z.of_nat (length s) + - Z.of_nat n) 0))
    with (length s - n)%nat by lia.
  apply firstn_all2. rewrite length_skipn. lia.
Qed.

Lemma js_slice_drop_last (s : jsstring) (n : nat) :
  (0 < n)%nat ->
  js_slice s 0 (- Z.of_nat n) = firstn (length s - n) s.
Proof.
  intros Hn. unfold js_slice, rel_index, strlen.
  replace (- Z.of_nat n <? 0)%Z with true by (symmetry; apply Z.ltb_lt; lia).
  change (0 <? 0)%Z with false. cbv iota.
  set (lo := Z.min 0 (Z.of_nat (length s))).
  assert (Hlo : lo = 0%Z) by lia. rewrite Hlo. simpl skipn.
  f_equal. lia.
Qed.

Lemma firstn_app_exact {A} (a b : list A) : firstn (length a) (a ++ b) = a.
Proof.
  rewrite firstn_app, Nat.sub_diag, firstn_all. simpl. apply app_nil_r.
Qed.

(** A string ends in [suf] exactly when its last [length suf] code units
    are [suf]; the part before is then what [slice(0, -n)] returns. *)
Lemma ends_with_split (s suf : jsstring) :
  skipn (length s - length suf) s = suf <->
  exists p, s = p ++ suf.
Proof.
  split.
  - intros H. exists (firstn (length s - length suf) s).
    rewrite <- (firstn_skipn (length s - length suf) s) at 1.
    f_equal. exact H.
  - intros [p ->]. rewrite length_app, Nat.add_sub.
    rewrite skipn_app, Nat.sub_diag, skipn_all. reflexivity.
Qed.

(** ** Facts about the regular expression *)

Lemma span_spec (p : ascii -> bool) (s a b : jsstring) :
  span p s = (a, b) ->
  s = a ++ b /\ forallb p a = true /\
  match b with [] => True | c :: _ => p c = false end.
Proof.
  revert a b; induction s as [|c t IH]; intros a b; simpl.
  - intros H; inversion H; subst; auto.
  - destruct (p c) eqn:Hc.
    + destruct (span p t) as [a' b'] eqn:E. intros H; inversion H; subst.
      destruct (IH a' b eq_refl) as (-> & Ha & Hb).
      simpl. rewrite Hc. auto.
    + intros H; inversion H; subst. simpl. auto.
Qed.

Lemma span_app (p : ascii -> bool) (a b : jsstring) :
  forallb p a = true ->
  match b with [] => True | c :: _ => p c = false end ->
  span p (a ++ b) = (a, b).
Proof.
  induction a as [|c a IH]; simpl; intros Ha Hb.
  - destruct b as [|c b]; simpl; [reflexivity | rewrite Hb; reflexivity].
  - apply andb_true_iff in Ha as [Hc Ha]. rewrite Hc, (IH Ha Hb). reflexivity.
Qed.

Lemma not_rbracket_false (c : ascii) : not_rbracket c = false -> c = rbracket.
Proof.
  unfold not_rbracket. destruct (Ascii.eqb_spec c rbracket); simpl; congruence.
Qed.

Lemma match_at_not_dot (c : ascii) (r : jsstring) :
  c <> dot -> match_at (c :: r) = None.
Proof.
  intros H. simpl. destruct (Ascii.eqb_spec c dot); [contradiction | reflexivity].
Qed.

Lemma match_at_dot (r : jsstring) :
  match_at (dot :: r) =
  match match_digits r with Some r1 => Some r1 | None => match_bracket r end.
Proof. reflexivity. Qed.

Lemma match_at_starts_dot (s r : jsstring) :
  match_at s = Some r -> exists t, s = dot :: t.
Proof.
  destruct s as [|c t]; simpl; [discriminate|].
  destruct (Ascii.eqb_spec c dot) as [->|]; [eauto | discriminate].
Qed.

Lemma match_digits_spec (r r1 : jsstring) :
  match_digits r = Some r1 ->
  exists ds, ds <> [] /\ forallb is_digit ds = true /\ r = ds ++ r1
             /\ lookahead r1 = true.
Proof.
  unfold match_digits. destruct (span is_digit r) as [ds r1'] eqn:E.
  destruct (negb (Nat.eqb (length ds) 0) && lookahead r1') eqn:C; [|discriminate].
  intros H; inversion H; subst r1'.
  apply andb_true_iff in C as [C1 C2].
  destruct (span_spec _ _ _ _ E) as (Hr & Hds & _).
  exists ds. repeat split; auto. intros ->. discriminate C1.
Qed.

Lemma match_bracket_spec (r r4 : jsstring) :
  match_bracket r = Some r4 ->
  exists body, forallb not_rbracket body = true
               /\ r = dollar :: lbracket :: body ++ rbracket :: r4
               /\ lookahead r4 = true.
Proof.
  unfold match_bracket. destruct r as [|c1 [|c2 r2]]; try discriminate.
  destruct (Ascii.eqb_spec c1 dollar) as [->|]; [|discriminate].
  destruct (Ascii.eqb_spec c2 lbracket) as [->|]; [|discriminate]. simpl.
  destruct (span not_rbracket r2) as [body r3] eqn:E.
  destruct r3 as [|c3 r3]; [discriminate|].
  destruct (Ascii.eqb_spec c3 rbracket) as [->|]; [|discriminate]. simpl.
  destruct (lookahead r3) eqn:L; [|discriminate].
  intros H; inversion H; subst r3.
  destruct (span_spec _ _ _ _ E) as (Hr & Hb & _).
  exists body. subst r2. auto.
Qed.

Lemma match_at_length (s r : jsstring) :
  match_at s = Some r -> (length r + 2 <= length s)%nat.
Proof.
  intros H. destruct (match_at_starts_dot _ _ H) as [t ->].
  rewrite match_at_dot in H.
  destruct (match_digits t) as [r1|] eqn:D.
  - inversion H; subst r1.
    destruct (match_digits_spec _ _ D) as (ds & Hne & _ & -> & _).
    destruct ds; [contradiction|]. simpl. rewrite length_app. simpl. lia.
  - destruct (match_bracket_spec _ _ H) as (body & _ & -> & _).
    simpl. rewrite length_app. simpl. lia.
Qed.

Lemma replace_fuel_enough (n : nat) (s : jsstring) :
  (length s <= n)%nat -> replace_fuel n s = replace_generic s.
Proof.
  unfold replace_generic.
  revert s. induction n as [n IH] using lt_wf_ind. intros s Hlen.
  destruct s as [|c t].
  - destruct n; reflexivity.
  - destruct n as [|n]; [simpl in Hlen; lia|].
    simpl length. cbn [replace_fuel].
    destruct (match_at (c :: t)) as [r|] eqn:M.
    + apply match_at_length in M. simpl in M, Hlen.
      rewrite (IH n) by lia. rewrite (IH (length t)) by lia. reflexivity.
    + simpl in Hlen. rewrite (IH n) by lia. reflexivity.
Qed.

Lemma replace_generic_nil : replace_generic [] = [].
Proof. reflexivity. Qed.

Lemma replace_generic_cons (c : ascii) (t : jsstring) :
  replace_generic (c :: t) =
  match match_at (c :: t) with
  | Some r => dot :: dollar :: replace_generic r
  | None => c :: replace_generic t
  end.
Proof.
  unfold replace_generic at 1. simpl length. cbn [replace_fuel].
  destruct (match_at (c :: t)) as [r|] eqn:M.
  - apply match_at_length in M. simpl in M.
    rewrite replace_fuel_enough by lia. reflexivity.
  - reflexivity.
Qed.

Lemma replace_generic_copy (c : ascii) (t : jsstring) :
  match_at (c :: t) = None ->
  replace_generic (c :: t) = c :: replace_generic t.
Proof. intros H. rewrite replace_generic_cons, H. reflexivity. Qed.

Lemma replace_generic_not_dot (c : ascii) (t : jsstring) :
  c <> dot -> replace_generic (c :: t) = c :: replace_generic t.
Proof. intros H. apply replace_generic_copy, match_at_not_dot, H. Qed.

(** The replacement keeps the first code unit. *)
Lemma replace_generic_head (s : jsstring) :
  hd_error (replace_generic s) = hd_error s.
Proof.
  destruct s as [|c t]; [reflexivity|].
  rewrite replace_generic_cons.
  destruct (match_at (c :: t)) as [r|] eqn:M; [|reflexivity].
  destruct (match_at_starts_dot _ _ M) as [t' E]. inversion E; reflexivity.
Qed.

Lemma lookahead_hd (a b : jsstring) :
  hd_error a = hd_error b -> lookahead a = lookahead b.
Proof.
  destruct a, b; simpl; intros H; try discriminate; try reflexivity.
  inversion H; reflexivity.
Qed.

Lemma lookahead_replace (s : jsstring) :
  lookahead (replace_generic s) = lookahead s.
Proof. apply lookahead_hd, replace_generic_head. Qed.

Lemma replace_generic_over (p : ascii -> bool) (a b : jsstring) :
  p dot = false -> forallb p a = true ->
  replace_generic (a ++ b) = a ++ replace_generic b.
Proof.
  intros Hdot. induction a as [|c a IH]; simpl; intros Ha; [reflexivity|].
  apply andb_true_iff in Ha as [Hc Ha].
  rewrite replace_generic_not_dot, IH by (auto; intros ->; congruence).
  reflexivity.
Qed.

Lemma head_fails_replace (p : ascii -> bool) (s : jsstring) :
  match s with [] => True | c :: _ => p c = false end ->
  match replace_generic s with [] => True | c :: _ => p c = false end.
Proof.
  pose proof (replace_generic_head s) as H.
  destruct s as [|c t], (replace_generic _) as [|c' t']; simpl in *;
    try discriminate; auto.
  inversion H; subst; auto.
Qed.

Lemma closes_badly_head (p : ascii -> bool) (r3 : jsstring) :
  p rbracket = false -> closes_badly r3 ->
  match r3 with [] => True | c :: _ => p c = false end.
Proof. destruct r3; simpl; [auto | intros H [-> _]; exact H]. Qed.

Lemma head_fails_app (p : ascii -> bool) (a b : jsstring) :
  match a with [] => True | c :: _ => p c = false end ->
  match b with [] => True | c :: _ => p c = false end ->
  match a ++ b with [] => True | c :: _ => p c = false end.
Proof. destruct a; simpl; auto. Qed.

Lemma match_digits_replace (t : jsstring) :
  match_digits (replace_generic t) =
  option_map replace_generic (match_digits t).
Proof.
  unfold match_digits. destruct (span is_digit t) as [ds r1] eqn:E.
  destruct (span_spec _ _ _ _ E) as (-> & Hds & Hr1).
  rewrite (replace_generic_over is_digit) by auto.
  rewrite span_app;
    [| assumption | apply (head_fails_replace is_digit); assumption].
  rewrite lookahead_replace.
  destruct (negb (Nat.eqb (length ds) 0) && lookahead r1); reflexivity.
Qed.

(** Inside the brackets of a [$[] that does not match, every match ends
    before the closing bracket. *)
Lemma replace_inside_bracket (n : nat) (body r3 : jsstring) :
  (length body <= n)%nat ->
  forallb not_rbracket body = true ->
  closes_badly r3 ->
  exists body', forallb not_rbracket body' = true
                /\ replace_generic (body ++ r3) = body' ++ replace_generic r3.
Proof.
  revert body. induction n as [n IH] using lt_wf_ind.
  intros [|c b] Hlen Hb Hr3.
  { exists []. auto. }
  simpl in Hlen, Hb. apply andb_true_iff in Hb as [Hc Hb].
  simpl app. rewrite replace_generic_cons.
  destruct (match_at (c :: b ++ r3)) as [r|] eqn:M.
  - destruct (match_at_starts_dot _ _ M) as [t E]. inversion E; subst c t.
    rewrite match_at_dot in M.
    destruct (match_digits (b ++ r3)) as [r1|] eqn:D.
    + inversion M; subst r1. clear M.
      unfold match_digits in D.
      destruct (span is_digit b) as [ds0 b1] eqn:E0.
      destruct (span_spec _ _ _ _ E0) as (Eb & Hds0 & Hb1).
      rewrite Eb, <- app_assoc, span_app in D; auto.
      2:{ apply head_fails_app; auto.
          apply closes_badly_head; auto. }
      destruct (negb (Nat.eqb (length ds0) 0) && lookahead (b1 ++ r3));
        [|discriminate].
      inversion D; subst r. subst b.
      rewrite forallb_app in Hb. apply andb_true_iff in Hb as [_ Hb1'].
      rewrite length_app in Hlen.
      assert (Hlt : (length b1 < n)%nat) by lia.
      destruct (IH (length b1) Hlt b1 (Nat.le_refl _) Hb1' Hr3)
        as (body' & Hbody' & Eq).
      exists (dot :: dollar :: body'). simpl. rewrite Hbody', Eq. auto.
    + exfalso.
      destruct (match_bracket_spec _ _ M) as (body0 & Hb0 & Eq & La).
      assert (S1 : span not_rbracket (b ++ r3) = (b, r3)).
      { apply span_app; auto. apply closes_badly_head; auto. }
      assert (S2 : span not_rbracket (b ++ r3)
                   = (dollar :: lbracket :: body0, rbracket :: r)).
      { rewrite Eq.
        change (dollar :: lbracket :: body0 ++ rbracket :: r)
          with ((dollar :: lbracket :: body0) ++ rbracket :: r).
        apply span_app; simpl; auto. }
      rewrite S1 in S2. inversion S2; subst r3.
      destruct Hr3 as [_ Hr3]. congruence.
  - assert (Hlt : (length b < n)%nat) by lia.
    destruct (IH (length b) Hlt b (Nat.le_refl _) Hb Hr3)
      as (body' & Hbody' & Eq).
    exists (c :: body'). simpl. rewrite Hc, Hbody', Eq. auto.
Qed.

Lemma match_bracket_replace_none (t : jsstring) :
  match_bracket t = None -> match_bracket (replace_generic t) = None.
Proof.
  intros H. destruct t as [|c1 [|c2 r2]].
  - reflexivity.
  - rewrite replace_generic_copy; [reflexivity|].
    simpl. destruct (Ascii.eqb c1 dot); reflexivity.
  - destruct (Ascii.eqb_spec c1 dollar) as [->|N1].
    + rewrite replace_generic_not_dot by discriminate.
      destruct (Ascii.eqb_spec c2 lbracket) as [->|N2].
      * rewrite replace_generic_not_dot by discriminate.
        unfold match_bracket in H. simpl in H.
        destruct (span not_rbracket r2) as [body r3] eqn:E.
        destruct (span_spec _ _ _ _ E) as (-> & Hbody & Hr3).
        assert (Hbad : closes_badly r3).
        { destruct r3 as [|c3 r4]; simpl; auto.
          apply not_rbracket_false in Hr3. subst c3. split; auto.
          rewrite Ascii.eqb_refl in H. simpl in H.
          destruct (lookahead r4); [discriminate | reflexivity]. }
        destruct (replace_inside_bracket (length body) body r3)
          as (body' & Hbody' & Eq); auto.
        rewrite Eq. unfold match_bracket. simpl.
        destruct r3 as [|c3 r4].
        -- rewrite replace_generic_nil, span_app by (simpl; auto).
           reflexivity.
        -- destruct Hbad as [-> La].
           rewrite replace_generic_not_dot by discriminate.
           rewrite span_app by (simpl; auto).
           rewrite Ascii.eqb_refl, lookahead_replace, La. reflexivity.
      * pose proof (replace_generic_head (c2 :: r2)) as Hh.
        destruct (replace_generic (c2 :: r2)) as [|d2 r2'];
          [reflexivity|].
        simpl in Hh. inversion Hh; subst d2.
        simpl. destruct (Ascii.eqb_spec c2 lbracket); [contradiction|].
        reflexivity.
    + pose proof (replace_generic_head (c1 :: c2 :: r2)) as Hh.
      destruct (replace_generic (c1 :: c2 :: r2)) as [|d1 [|d2 r']];
        try reflexivity.
      simpl in Hh. inversion Hh; subst d1.
      simpl. destruct (Ascii.eqb_spec c1 dollar); [contradiction|].
      reflexivity.
Qed.

(** A code unit the first pass copied starts no match in its output. *)
Lemma no_match_after_copy (c : ascii) (t : jsstring) :
  match_at (c :: t) = None -> match_at (c :: replace_generic t) = None.
Proof.
  destruct (Ascii.eqb_spec c dot) as [->|N]; [|intros _; apply match_at_not_dot, N].
  rewrite !match_at_dot, match_digits_replace.
  destruct (match_digits t); [discriminate|]. simpl.
  apply match_bracket_replace_none.
Qed.

Lemma match_at_lookahead (s r : jsstring) :
  match_at s = Some r -> lookahead r = true.
Proof.
  intros H. destruct (match_at_starts_dot _ _ H) as [t ->].
  rewrite match_at_dot in H.
  destruct (match_digits t) as [r1|] eqn:D.
  - inversion H; subst. destruct (match_digits_spec _ _ D) as (? & ? & ? & ? & ?).
    assumption.
  - destruct (match_bracket_spec _ _ H) as (? & ? & ? & ?). assumption.
Qed.

(** The [.$] the first pass wrote starts no match in its output. *)
Lemma no_match_after_replacement (r : jsstring) :
  lookahead r = true ->
  match_at (dot :: dollar :: replace_generic r) = None.
Proof.
  intros La. rewrite match_at_dot.
  pose proof (lookahead_replace r) as L. rewrite La in L.
  destruct (replace_generic r) as [|d r']; [reflexivity|].
  simpl in L. apply Ascii.eqb_eq in L. subst d. reflexivity.
Qed.

Lemma replace_generic_idempotent (s : jsstring) :
  replace_generic (replace_generic s) = replace_generic s.
Proof.
  remember (length s) as n eqn:Hn. revert s Hn.
  induction n as [n IH] using lt_wf_ind. intros [|c t] Hn.
  - reflexivity.
  - rewrite (replace_generic_cons c t).
    destruct (match_at (c :: t)) as [r|] eqn:M.
    + pose proof (match_at_lookahead _ _ M) as La.
      pose proof (match_at_length _ _ M) as Hlen. simpl in Hlen, Hn.
      rewrite replace_generic_copy by (apply no_match_after_replacement, La).
      rewrite replace_generic_not_dot by discriminate.
      rewrite (IH (length r)) by (auto; lia). reflexivity.
    + rewrite replace_generic_copy by (apply no_match_after_copy, M).
      simpl in Hn. rewrite (IH (length t)) by (auto; lia). reflexivity.
Qed.

(** The matcher finds exactly the runs the specification describes. *)
Lemma match_at_run (s r : jsstring) : match_at s = Some r <-> run_at s r.
Proof.
  split.
  - intros H. destruct (match_at_starts_dot _ _ H) as [t ->].
    rewrite match_at_dot in H.
    destruct (match_digits t) as [r1|] eqn:D.
    + inversion H; subst r1.
      destruct (match_digits_spec _ _ D) as (ds & Hne & Hds & -> & La).
      exists ds. split; [left; auto | auto].
    + destruct (match_bracket_spec _ _ H) as (body & Hb & -> & La).
      exists (dollar :: lbracket :: body ++ [rbracket]).
      split; [right; eauto|]. split; [|exact La].
      simpl. rewrite <- app_assoc. reflexivity.
  - intros (tok & Htok & -> & La).
    assert (Hr : match r with [] => True | c :: _ => c = dot end).
    { destruct r; simpl in *; auto. apply Ascii.eqb_eq, La. }
    rewrite match_at_dot.
    destruct Htok as [[Hne Hds] | (body & -> & Hb)].
    + unfold match_digits. rewrite span_app; auto.
      * rewrite La. destruct tok; [contradiction | reflexivity].
      * destruct r; auto. subst. reflexivity.
    + simpl. unfold match_bracket. simpl.
      rewrite <- app_assoc. simpl.
      rewrite span_app by (simpl; auto).
      rewrite Ascii.eqb_refl, La. reflexivity.
Qed.

Lemma replaced_replace_generic (s : jsstring) : replaced s (replace_generic s).
Proof.
  remember (length s) as n eqn:Hn. revert s Hn.
  induction n as [n IH] using lt_wf_ind. intros [|c t] Hn.
  - constructor.
  - rewrite replace_generic_cons.
    destruct (match_at (c :: t)) as [r|] eqn:M.
    + pose proof (match_at_length _ _ M) as Hlen. simpl in Hlen, Hn.
      apply replaced_run with (r := r).
      * apply match_at_run, M.
      * apply (IH (length r)); auto; lia.
    + apply replaced_keep.
      * intros r Hr. apply match_at_run in Hr. congruence.
      * simpl in Hn. apply (IH (length t)); auto; lia.
Qed.

Lemma replaced_unique (s out : jsstring) :
  replaced s out -> out = replace_generic s.
Proof.
  induction 1 as [| s r out Hrun _ IH | c t out Hno _ IH].
  - reflexivity.
  - apply match_at_run in Hrun.
    destruct (match_at_starts_dot _ _ Hrun) as [t ->].
    rewrite replace_generic_cons, Hrun, IH. reflexivity.
  - rewrite replace_generic_copy, IH; [reflexivity|].
    destruct (match_at (c :: t)) as [r|] eqn:M; [|reflexivity].
    exfalso. apply (Hno r), match_at_run, M.
Qed.

(** ** Facts about segments *)

Lemma join_dots_tail (first : jsstring) (rest : list jsstring) :
  join_dots (first :: rest) = first ++ tail_dots rest.
Proof.
  revert first; induction rest as [|seg rest IH]; intros first.
  - simpl. symmetry. apply app_nil_r.
  - change (join_dots (first :: seg :: rest))
      with (first ++ dot :: join_dots (seg :: rest)).
    rewrite IH. reflexivity.
Qed.

Lemma lookahead_tail_dots (segs : list jsstring) :
  lookahead (tail_dots segs) = true.
Proof. destruct segs; reflexivity. Qed.

Lemma well_formed_no_dot (seg : jsstring) :
  well_formed_segment seg = true -> forallb not_dot seg = true.
Proof. unfold well_formed_segment. intros H. apply andb_true_iff in H. tauto. Qed.

Lemma lookahead_app_not_dot (a b : jsstring) :
  a <> [] -> forallb not_dot a = true -> lookahead (a ++ b) = false.
Proof.
  destruct a as [|c a]; [contradiction|]. simpl. intros _ H.
  apply andb_true_iff in H as [H _]. unfold not_dot in H.
  destruct (Ascii.eqb c dot); [discriminate | reflexivity].
Qed.

Lemma match_digits_segment (seg rest : jsstring) :
  forallb not_dot seg = true -> lookahead rest = true ->
  match_digits (seg ++ rest) =
  if is_index_segment seg then Some rest else None.
Proof.
  intros Hnd La. unfold match_digits, is_index_segment.
  assert (Hrest : match rest with [] => True | c :: _ => is_digit c = false end).
  { destruct rest; simpl in *; auto. apply Ascii.eqb_eq in La. subst. reflexivity. }
  destruct (span is_digit seg) as [ds s1] eqn:E.
  destruct (span_spec _ _ _ _ E) as (-> & Hds & Hs1).
  rewrite <- app_assoc, span_app;
    [| assumption | apply (head_fails_app is_digit); assumption].
  rewrite forallb_app in Hnd. apply andb_true_iff in Hnd as [_ Hnd].
  destruct s1 as [|c s1].
  - rewrite app_nil_r. simpl app. rewrite La, Hds, andb_true_r.
    destruct (negb (Nat.eqb (length ds) 0)); reflexivity.
  - rewrite lookahead_app_not_dot by (auto; discriminate).
    rewrite forallb_app. simpl forallb. rewrite Hs1.
    rewrite !andb_false_r. reflexivity.
Qed.

Lemma existsb_span_rbracket (r body r3 : jsstring) :
  span not_rbracket r = (body, r3) ->
  existsb (fun c => Ascii.eqb c rbracket) r = true ->
  exists r4, r3 = rbracket :: r4.
Proof.
  revert body r3. induction r as [|c r IH]; intros body r3; simpl.
  - discriminate.
  - unfold not_rbracket at 1.
    destruct (Ascii.eqb_spec c rbracket) as [->|N]; simpl.
    + intros H _. inversion H. eauto.
    + destruct (span not_rbracket r) as [a b] eqn:E.
      intros H Hex. inversion H; subst. eapply IH; eauto.
Qed.

Lemma match_bracket_segment (seg rest : jsstring) :
  well_formed_segment seg = true -> lookahead rest = true ->
  match_bracket (seg ++ rest) =
  if is_positional_segment seg then Some rest else None.
Proof.
  intros Hwf La.
  assert (Hrest : match rest with [] => True | c :: _ => c = dot end).
  { destruct rest; simpl in *; auto. apply Ascii.eqb_eq, La. }
  pose proof (well_formed_no_dot _ Hwf) as Hnd.
  unfold well_formed_segment in Hwf. apply andb_true_iff in Hwf as [_ Hwf].
  destruct seg as [|c1 [|c2 r]].
  - simpl. destruct rest as [|d1 [|d2 rest]]; try reflexivity.
    subst d1. reflexivity.
  - simpl. destruct rest as [|d1 rest]; [reflexivity|]. subst d1.
    rewrite andb_false_r. reflexivity.
  - simpl app. unfold match_bracket, is_positional_segment.
    destruct (Ascii.eqb c1 dollar && Ascii.eqb c2 lbracket) eqn:C;
      [|reflexivity].
    simpl in Hwf. simpl andb.
    destruct (span not_rbracket r) as [body r3] eqn:E.
    destruct (existsb_span_rbracket _ _ _ E Hwf) as [r4 ->].
    destruct (span_spec _ _ _ _ E) as (-> & Hbody & _).
    rewrite <- app_assoc. simpl app.
    rewrite span_app by (simpl; auto).
    rewrite Ascii.eqb_refl. simpl andb.
    simpl in Hnd. rewrite !forallb_app in Hnd. simpl in Hnd.
    rewrite !andb_true_iff in Hnd. destruct Hnd as (_ & _ & _ & Hr4).
    destruct r4 as [|c r4].
    + simpl. rewrite La. reflexivity.
    + rewrite lookahead_app_not_dot by (auto; discriminate).
      reflexivity.
Qed.

Lemma match_at_segment (seg rest : jsstring) :
  well_formed_segment seg = true -> lookahead rest = true ->
  match_at (dot :: seg ++ rest) =
  if is_index_segment seg || is_positional_segment seg
  then Some rest else None.
Proof.
  intros Hwf La. rewrite match_at_dot.
  rewrite match_digits_segment by (auto using well_formed_no_dot).
  destruct (is_index_segment seg) eqn:I; simpl; [reflexivity|].
  apply match_bracket_segment; auto.
Qed.

Lemma replace_tail_dots (segs : list jsstring) :
  forallb well_formed_segment segs = true ->
  replace_generic (tail_dots segs) = tail_dots (map generic_segment segs).
Proof.
  induction segs as [|seg segs IH]; [reflexivity|].
  simpl. intros H. apply andb_true_iff in H as [Hwf Hall].
  rewrite replace_generic_cons.
  rewrite match_at_segment by (auto using lookahead_tail_dots).
  unfold generic_segment.
  destruct (is_index_segment seg || is_positional_segment seg).
  - rewrite IH by assumption. reflexivity.
  - rewrite (replace_generic_over not_dot)
      by (auto using well_formed_no_dot).
    rewrite IH by assumption. reflexivity.
Qed.

(** ** Facts about the property store *)

Lemma streqb_sym (a b : jsstring) : streqb a b = streqb b a.
Proof.
  destruct (streqb a b) eqn:E.
  - apply streqb_eq in E. subst. symmetry. apply streqb_refl.
  - symmetry. apply streqb_neq. apply streqb_neq in E. congruence.
Qed.

Lemma prop_lookup_app (k : jsstring) (a b : props_t) :
  prop_lookup k (a ++ b) =
  match prop_lookup k a with
  | Some v => Some v
  | None => prop_lookup k b
  end.
Proof.
  induction a as [|[k' v'] a IH]; simpl; [reflexivity|].
  destruct (streqb k' k); auto.
Qed.

Lemma prop_lookup_replace_same (k : jsstring) (v : value) (ps : props_t) :
  has_key k ps = true -> prop_lookup k (prop_replace k v ps) = Some v.
Proof.
  unfold has_key. induction ps as [|[k' v'] ps IH]; simpl; [discriminate|].
  destruct (streqb k' k) eqn:E; simpl; rewrite E; auto.
Qed.

Lemma prop_lookup_replace_other (k k' : jsstring) (v : value) (ps : props_t) :
  k' <> k -> prop_lookup k' (prop_replace k v ps) = prop_lookup k' ps.
Proof.
  intros N. induction ps as [|[k0 v0] ps IH]; simpl; [reflexivity|].
  destruct (streqb k0 k) eqn:E; simpl.
  - apply streqb_eq in E. subst k0.
    destruct (streqb k k') eqn:E'; [|reflexivity].
    apply streqb_eq in E'. congruence.
  - rewrite IH. reflexivity.
Qed.

Lemma prop_lookup_insert_same (n : N) (k : jsstring) (v : value) (ps : props_t) :
  has_key k ps = false -> prop_lookup k (insert_index n k v ps) = Some v.
Proof.
  unfold has_key. induction ps as [|[k' v'] ps IH]; simpl.
  - rewrite streqb_refl. reflexivity.
  - destruct (streqb k' k) eqn:E; [discriminate|]. intros H.
    destruct (array_index k') as [n'|].
    + destruct (n <? n')%N; simpl.
      * rewrite streqb_refl. reflexivity.
      * rewrite E. auto.
    + simpl. rewrite streqb_refl. reflexivity.
Qed.

Lemma prop_lookup_insert_other (n : N) (k k' : jsstring) (v : value)
    (ps : props_t) :
  k' <> k -> prop_lookup k' (insert_index n k v ps) = prop_lookup k' ps.
Proof.
  intros N. apply streqb_neq in N. rewrite streqb_sym in N.
  induction ps as [|[k0 v0] ps IH]; simpl.
  - rewrite N. reflexivity.
  - destruct (array_index k0) as [n0|].
    + destruct (n <? n0)%N; simpl.
      * rewrite N. reflexivity.
      * rewrite IH. reflexivity.
    + simpl. rewrite N. reflexivity.
Qed.

Lemma prop_lookup_set_same (k : jsstring) (v : value) (ps : props_t) :
  prop_lookup k (prop_set k v ps) = Some v.
Proof.
  unfold prop_set. destruct (has_key k ps) eqn:H.
  - apply prop_lookup_replace_same, H.
  - destruct (array_index k).
    + apply prop_lookup_insert_same, H.
    + rewrite prop_lookup_app. unfold has_key in H.
      destruct (prop_lookup k ps); [discriminate|].
      simpl. rewrite streqb_refl. reflexivity.
Qed.

Lemma prop_lookup_set_other (k k' : jsstring) (v : value) (ps : props_t) :
  k' <> k -> prop_lookup k' (prop_set k v ps) = prop_lookup k' ps.
Proof.
  intros N. unfold prop_set. destruct (has_key k ps).
  - apply prop_lookup_replace_other, N.
  - destruct (array_index k).
    + apply prop_lookup_insert_other, N.
    + rewrite prop_lookup_app. destruct (prop_lookup k' ps); [reflexivity|].
      simpl. apply streqb_neq in N. rewrite streqb_sym in N. rewrite N.
      reflexivity.
Qed.

Lemma prop_lookup_delete_same (k : jsstring) (ps : props_t) :
  prop_lookup k (prop_delete k ps) = None.
Proof.
  unfold prop_delete. induction ps as [|[k' v'] ps IH]; simpl; [reflexivity|].
  destruct (streqb k' k) eqn:E; simpl; [exact IH|]. rewrite E. exact IH.
Qed.

Lemma prop_lookup_delete_other (k k' : jsstring) (ps : props_t) :
  k' <> k -> prop_lookup k' (prop_delete k ps) = prop_lookup k' ps.
Proof.
  intros N. unfold prop_delete.
  induction ps as [|[k0 v0] ps IH]; simpl; [reflexivity|].
  destruct (streqb k0 k) eqn:E; simpl.
  - apply streqb_eq in E. subst k0.
    destruct (streqb k k') eqn:E'; [|exact IH].
    apply streqb_eq in E'. congruence.
  - rewrite IH. reflexivity.
Qed.


Lemma prop_replace_replace (k : jsstring) (v v' : value) (ps : props_t) :
  prop_replace k v' (prop_replace k v ps) = prop_replace k v' ps.
Proof.
  induction ps as [|[k0 v0] ps IH]; simpl; [reflexivity|].
  destruct (streqb k0 k) eqn:E; simpl; rewrite E; [reflexivity|].
  rewrite IH. reflexivity.
Qed.

Lemma prop_replace_insert (n : N) (k : jsstring) (v v' : value) (ps : props_t) :
  has_key k ps = false ->
  prop_replace k v' (insert_index n k v ps) = insert_index n k v' ps.
Proof.
  unfold has_key. induction ps as [|[k0 v0] ps IH]; simpl.
  - rewrite streqb_refl. reflexivity.
  - destruct (streqb k0 k) eqn:E; [discriminate|]. intros H.
    destruct (array_index k0) as [n0|].
    + destruct (n <? n0)%N; simpl.
      * rewrite streqb_refl. reflexivity.
      * rewrite E, IH by assumption. reflexivity.
    + simpl. rewrite streqb_refl. reflexivity.
Qed.

Lemma prop_replace_app_absent (k : jsstring) (v : value) (a b : props_t) :
  has_key k a = false ->
  prop_replace k v (a ++ b) = a ++ prop_replace k v b.
Proof.
  unfold has_key. induction a as [|[k0 v0] a IH]; simpl; [reflexivity|].
  destruct (streqb k0 k); [discriminate|].
  intros H. rewrite IH by assumption. reflexivity.
Qed.

(** Storing and then writing the child back is storing the child. *)
Lemma prop_replace_set (k : jsstring) (v v' : value) (ps : props_t) :
  prop_replace k v' (prop_set k v ps) = prop_set k v' ps.
Proof.
  unfold prop_set. destruct (has_key k ps) eqn:H.
  - apply prop_replace_replace.
  - destruct (array_index k).
    + apply prop_replace_insert, H.
    + rewrite prop_replace_app_absent by assumption.
      simpl. rewrite streqb_refl. reflexivity.
Qed.

Lemma existsb_keys_replace (f : jsstring -> bool) (k : jsstring) (v : value)
    (ps : props_t) :
  existsb (fun kv => f (fst kv)) (prop_replace k v ps)
  = existsb (fun kv => f (fst kv)) ps.
Proof.
  induction ps as [|[k0 v0] ps IH]; simpl; [reflexivity|].
  destruct (streqb k0 k); simpl; [reflexivity|]. rewrite IH. reflexivity.
Qed.

Lemma existsb_keys_insert (f : jsstring -> bool) (n : N) (k : jsstring)
    (v : value) (ps : props_t) :
  existsb (fun kv => f (fst kv)) (insert_index n k v ps)
  = f k || existsb (fun kv => f (fst kv)) ps.
Proof.
  induction ps as [|[k0 v0] ps IH]; simpl; [reflexivity|].
  destruct (array_index k0) as [n0|]; [|reflexivity].
  destruct (n <? n0)%N; simpl; [reflexivity|].
  rewrite IH. destruct (f k0), (f k); reflexivity.
Qed.

Lemma existsb_keys_present (f : jsstring -> bool) (k : jsstring)
    (ps : props_t) :
  has_key k ps = true -> f k = true ->
  existsb (fun kv => f (fst kv)) ps = true.
Proof.
  unfold has_key. induction ps as [|[k0 v0] ps IH]; simpl; [discriminate|].
  destruct (streqb k0 k) eqn:E.
  - apply streqb_eq in E. subst k0. intros _ ->. reflexivity.
  - intros H Hf. rewrite IH by assumption. apply orb_true_r.
Qed.

(** The keys after a store are the old keys and the stored one. *)
Lemma existsb_keys_set (f : jsstring -> bool) (k : jsstring) (v : value)
    (ps : props_t) :
  existsb (fun kv => f (fst kv)) (prop_set k v ps)
  = f k || existsb (fun kv => f (fst kv)) ps.
Proof.
  unfold prop_set. destruct (has_key k ps) eqn:H.
  - rewrite existsb_keys_replace. destruct (f k) eqn:Hf; [|reflexivity].
    simpl. apply (existsb_keys_present f k); assumption.
  - destruct (array_index k).
    + apply existsb_keys_insert.
    + rewrite existsb_app. simpl. rewrite orb_false_r. apply orb_comm.
Qed.

Lemma Forall_prop_replace (P : jsstring * value -> Prop) (same : forall k k' v,
    streqb k' k = true -> P (k, v) -> P (k', v))
    (k : jsstring) (v : value) (ps : props_t) :
  P (k, v) -> Forall P ps -> Forall P (prop_replace k v ps).
Proof.
  intros Hkv. induction 1 as [|[k0 v0] ps H0 Hps IH]; simpl; [constructor|].
  destruct (streqb k0 k) eqn:E; constructor; eauto.
Qed.

Lemma Forall_insert_index (P : jsstring * value -> Prop) (n : N)
    (k : jsstring) (v : value) (ps : props_t) :
  P (k, v) -> Forall P ps -> Forall P (insert_index n k v ps).
Proof.
  intros Hkv. induction 1 as [|[k0 v0] ps H0 Hps IH]; simpl.
  - constructor; auto.
  - destruct (array_index k0) as [n0|].
    + destruct (n <? n0)%N; repeat constructor; auto.
    + repeat constructor; auto.
Qed.

(** A property of the values holds after a store when it holds of the
    stored value. *)
Lemma Forall_values_set (Q : value -> Prop) (k : jsstring) (v : value)
    (ps : props_t) :
  Q v -> Forall (fun kv => Q (snd kv)) ps ->
  Forall (fun kv => Q (snd kv)) (prop_set k v ps).
Proof.
  intros Hv Hps. unfold prop_set. destruct (has_key k ps).
  - apply Forall_prop_replace; auto.
  - destruct (array_index k).
    + apply Forall_insert_index; auto.
    + apply Forall_app. split; [assumption | repeat constructor; assumption].
Qed.

(** Reading every key of [Object.keys] gives the entries back. *)
Lemma entries_by_key (ps : props_t) :
  NoDup (map fst ps) ->
  map (fun k => (k, prop_get k ps)) (map fst ps) = ps.
Proof.
  induction ps as [|[k v] ps IH]; simpl; [reflexivity|].
  intros H. inversion H as [|? ? Hnotin Hnodup]; subst.
  unfold prop_get at 1. simpl. rewrite streqb_refl. f_equal.
  rewrite <- IH at 2 by assumption.
  apply map_ext_in. intros k' Hin. unfold prop_get. simpl.
  destruct (streqb k k') eqn:E; [|reflexivity].
  apply streqb_eq in E. subst k'. contradiction.
Qed.

(** ** Facts about the sanitizer *)

Lemma cleanNulls_unfold (doc : value) (isArray keep : bool) :
  cleanNulls doc isArray keep
  = fold_left (clean_step keep) (own_entries doc) (new_doc isArray).
Proof. destruct doc; reflexivity. Qed.

Lemma new_doc_good (isArray : bool) : good_doc isArray (new_doc isArray).
Proof. destruct isArray; repeat split. Qed.

Lemma no_empty_inside_Forall (ps : props_t) :
  forallb (fun kv => negb (is_empty_container (snd kv))
                     && no_empty_inside (snd kv)) ps = true
  <-> Forall (fun kv => good_value (snd kv)) ps.
Proof.
  rewrite forallb_forall, Forall_forall. unfold good_value.
  split; intros H kv Hin; specialize (H kv Hin).
  - apply andb_true_iff in H as [H1 H2].
    apply negb_true_iff in H1. auto.
  - destruct H as [H1 H2]. rewrite H1, H2. reflexivity.
Qed.

Lemma has_element_set (k : jsstring) (v : value) (ps : props_t) :
  has_element (prop_set k v ps) = is_some (array_index k) || has_element ps.
Proof. exact (existsb_keys_set (fun k => is_some (array_index k)) k v ps). Qed.

Lemma store_good (isArray : bool) (k : jsstring) (v d : value) :
  good_doc isArray d -> good_value v -> good_doc isArray (store k v d).
Proof.
  intros (Ha & Ho & Hin & Hlen) Hv.
  destruct d as [| |b|n|s|len ps|ps|tag size ps];
    try (destruct isArray; discriminate).
  - simpl in *. repeat split; auto.
    + apply no_empty_inside_Forall. apply no_empty_inside_Forall in Hin.
      apply Forall_values_set; assumption.
    + unfold lengths_agree. rewrite has_element_set.
      destruct (array_index k) as [n|]; simpl; [|exact Hlen].
      apply N.eqb_neq. lia.
  - simpl in *. repeat split; auto.
    apply no_empty_inside_Forall. apply no_empty_inside_Forall in Hin.
    apply Forall_values_set; assumption.
Qed.

Lemma clean_step_good (isArray keep : bool) (d : value)
    (kv : jsstring * value) :
  (forall a, good_doc a (cleanNulls (snd kv) a keep)) ->
  good_doc isArray d -> good_doc isArray (clean_step keep d kv).
Proof.
  intros IH Hd. destruct kv as [key val]. unfold clean_step.
  simpl fst; simpl snd in *.
  pose proof (IH false) as HO. pose proof (IH true) as HA. clear IH.
  revert HO. generalize (cleanNulls val false keep). intros rO HO.
  revert HA. generalize (cleanNulls val true keep). intros rA HA.
  unfold clean_entry.
  destruct val as [| |b|n|s|len ps|ps|tag size ps]; simpl;
    try (rewrite andb_false_r; assumption);
    try (apply store_good; [assumption | split; reflexivity]).
  - destruct (Nat.eqb (length s) 0) eqn:E; simpl.
    + destruct keep; simpl; [|assumption].
      apply store_good; [assumption | split; reflexivity].
    + apply store_good; [assumption | split; reflexivity].
  - destruct HA as (Ha & _ & Hin & Hlen).
    destruct rA as [| |b'|n'|s'|len' ps'|ps'|tag' size' ps'];
      try discriminate.
    simpl in *. destruct (len' =? 0)%N eqn:E; simpl; [assumption|].
    apply store_good; [assumption|]. split; [|assumption].
    simpl. rewrite E. simpl. apply negb_false_iff.
    destruct (has_element ps'); [reflexivity | discriminate].
  - destruct HO as (_ & Ho & Hin & _).
    destruct rO as [| |b'|n'|s'|len' ps'|ps'|tag' size' ps'];
      try discriminate.
    simpl in *. destruct (Nat.eqb (length ps') 0) eqn:E; simpl; [assumption|].
    apply store_good; [assumption|]. split; assumption.
Qed.

Lemma fold_clean_good (isArray keep : bool) (ps : props_t) :
  Forall (fun kv => forall a, good_doc a (cleanNulls (snd kv) a keep)) ps ->
  forall d, good_doc isArray d ->
            good_doc isArray (fold_left (clean_step keep) ps d).
Proof.
  induction 1 as [|kv ps Hkv _ IH]; intros d Hd; simpl; [assumption|].
  apply IH, clean_step_good; assumption.
Qed.

Lemma cleanNulls_good (doc : value) :
  forall isArray keep, good_doc isArray (cleanNulls doc isArray keep).
Proof.
  induction doc as [| |b|n|s|len ps IH|ps IH|tag size ps IH]
    using value_ind; intros isArray keep;
    try apply new_doc_good;
    rewrite cleanNulls_unfold; simpl own_entries;
    (apply fold_clean_good; [|apply new_doc_good]);
    (eapply Forall_impl; [|exact IH]); simpl; auto.
Qed.



(** ** Facts about reportNulls *)

Lemma fold_report_lookup (flatDoc : value) (keep : bool) (k : jsstring)
    (keys : list jsstring) (acc : props_t) :
  exists ps,
    fold_left (report_step flatDoc keep) keys (VObj acc) = VObj ps
    /\ prop_lookup k ps =
       if existsb (fun key => streqb key k) keys
          && is_null_like keep (prop_get k (own_entries flatDoc))
       then Some (VStr [])
       else prop_lookup k acc.
Proof.
  revert acc. induction keys as [|key keys IH]; intros acc; simpl.
  - exists acc. auto.
  - unfold report_step at 2.
    destruct (streqb key k) eqn:E.
    + apply streqb_eq in E. subst key. simpl.
      destruct (is_null_like keep (prop_get k (own_entries flatDoc))) eqn:Hn.
      * destruct (IH (prop_set k (VStr []) acc)) as (ps & Hf & Hl).
        exists ps. split; [exact Hf|]. rewrite Hl.
        rewrite andb_true_r, prop_lookup_set_same.
        destruct (existsb _ keys); reflexivity.
      * destruct (IH acc) as (ps & Hf & Hl).
        exists ps. split; [exact Hf|]. rewrite Hl, !andb_false_r.
        reflexivity.
    + simpl orb.
      destruct (is_null_like keep (prop_get key (own_entries flatDoc))).
      * destruct (IH (prop_set key (VStr []) acc)) as (ps & Hf & Hl).
        exists ps. split; [exact Hf|]. rewrite Hl.
        rewrite prop_lookup_set_other; [reflexivity|].
        apply streqb_neq. rewrite streqb_sym. exact E.
      * apply IH.
Qed.

Lemma has_key_keys (k : jsstring) (ps : props_t) :
  has_key k ps = existsb (fun key => streqb key k) (map fst ps).
Proof.
  unfold has_key. induction ps as [|[k' v'] ps IH]; simpl; [reflexivity|].
  destruct (streqb k' k); [reflexivity | exact IH].
Qed.

Lemma reportNulls_lookup (flatDoc : value) (keep : bool) (k : jsstring) :
  exists ps,
    reportNulls flatDoc keep = VObj ps
    /\ prop_lookup k ps =
       if has_key k (own_entries flatDoc)
          && is_null_like keep (prop_get k (own_entries flatDoc))
       then Some (VStr [])
       else None.
Proof.
  destruct (fold_report_lookup flatDoc keep k (Object_keys flatDoc) [])
    as (ps & Hf & Hl).
  exists ps. split; [exact Hf|].
  rewrite Hl, has_key_keys. reflexivity.
Qed.


(** ** Facts about expandKey *)

Lemma strip_bracket_closed (piece : jsstring) :
  strip_bracket (piece ++ [rbracket]) = piece.
Proof.
  unfold strip_bracket. change (-1)%Z with (- Z.of_nat 1)%Z.
  rewrite js_slice_last, js_slice_drop_last by lia.
  rewrite length_app. simpl length. rewrite Nat.add_sub.
  rewrite skipn_app, Nat.sub_diag, skipn_all. simpl.
  apply firstn_app_exact.
Qed.

Lemma strip_bracket_open (piece : jsstring) :
  (forall p, piece <> p ++ [rbracket]) -> strip_bracket piece = piece.
Proof.
  intros H. unfold strip_bracket. change (-1)%Z with (- Z.of_nat 1)%Z.
  rewrite js_slice_last by lia.
  destruct (streqb (skipn (length piece - 1) piece) [rbracket]) eqn:E;
    [|reflexivity].
  apply streqb_eq in E. exfalso.
  change 1%nat with (length [rbracket]) in E.
  apply ends_with_split in E. destruct E as [p E]. exact (H p E).
Qed.

Lemma split_on_cons (sep : ascii) (s : jsstring) :
  exists p ps, split_on sep s = p :: ps.
Proof.
  induction s as [|c t (p & ps & IH)]; simpl; [eauto|].
  destruct (Ascii.eqb c sep); [eauto|]. rewrite IH. eauto.
Qed.

Lemma split_on_piece (k : jsstring) :
  no_lbracket k = true -> split_on lbracket k = [k].
Proof.
  unfold no_lbracket. induction k as [|c k IH]; simpl; [reflexivity|].
  intros H. apply andb_true_iff in H as [Hc Hk].
  apply negb_true_iff in Hc. rewrite Hc, IH by assumption. reflexivity.
Qed.

Lemma split_on_bracket (k rest : jsstring) :
  no_lbracket k = true ->
  split_on lbracket (k ++ lbracket :: rest) = k :: split_on lbracket rest.
Proof.
  unfold no_lbracket. induction k as [|c k IH]; simpl.
  - reflexivity.
  - intros H. apply andb_true_iff in H as [Hc Hk].
    apply negb_true_iff in Hc. rewrite Hc, IH by assumption. reflexivity.
Qed.

Lemma split_on_next_piece (rest : jsstring) :
  exists more, split_on lbracket rest = next_piece rest :: more.
Proof.
  unfold next_piece. destruct (split_on_cons lbracket rest) as (p & ps & E).
  rewrite E. simpl. eauto.
Qed.

Lemma get_prop_object (cur : value) (k : jsstring) :
  is_object cur = true -> get_prop cur k = Some (prop_get k (own_entries cur)).
Proof. destruct cur; simpl; try discriminate; reflexivity. Qed.

Lemma set_prop_object (cur : value) (k : jsstring) (v : value) :
  is_object cur = true -> set_prop cur k v = Some (store k v cur).
Proof. unfold set_prop. intros ->. reflexivity. Qed.

Lemma is_object_store (k : jsstring) (v cur : value) :
  is_object (store k v cur) = is_object cur.
Proof. destruct cur; reflexivity. Qed.

Lemma prop_get_set_same (k : jsstring) (v : value) (ps : props_t) :
  prop_get k (prop_set k v ps) = v.
Proof. unfold prop_get. rewrite prop_lookup_set_same. reflexivity. Qed.

Lemma entries_store (k : jsstring) (v cur : value) :
  is_object cur = true ->
  own_entries (store k v cur) = prop_set k v (own_entries cur).
Proof. destruct cur; simpl; try discriminate; reflexivity. Qed.

Lemma get_store_same (k : jsstring) (v cur : value) :
  is_object cur = true -> get_prop (store k v cur) k = Some v.
Proof.
  intros H. rewrite get_prop_object by (rewrite is_object_store; exact H).
  rewrite entries_store, prop_get_set_same by assumption. reflexivity.
Qed.

(** Writing the child back over a fresh store is storing the child. *)
Lemma with_child_store (k : jsstring) (v child cur : value) :
  with_child k child (store k v cur) = store k child cur.
Proof.
  destruct cur; simpl; try reflexivity; rewrite prop_replace_set; reflexivity.
Qed.


Lemma prop_delete_replace (k : jsstring) (v : value) (ps : props_t) :
  prop_delete k (prop_replace k v ps) = prop_delete k ps.
Proof.
  unfold prop_delete. induction ps as [|[k0 v0] ps IH]; simpl; [reflexivity|].
  destruct (streqb k0 k) eqn:E; simpl; rewrite E; simpl; [reflexivity|].
  rewrite IH. reflexivity.
Qed.

Lemma prop_delete_insert (n : N) (k : jsstring) (v : value) (ps : props_t) :
  prop_delete k (insert_index n k v ps) = prop_delete k ps.
Proof.
  unfold prop_delete. induction ps as [|[k0 v0] ps IH]; simpl.
  - rewrite streqb_refl. reflexivity.
  - destruct (array_index k0) as [n0|].
    + destruct (n <? n0)%N; simpl.
      * rewrite streqb_refl. reflexivity.
      * rewrite IH. reflexivity.
    + simpl. rewrite streqb_refl. reflexivity.
Qed.

(** Deleting a key that was just stored leaves what deleting it at once
    would have left. *)
Lemma prop_delete_set (k : jsstring) (v : value) (ps : props_t) :
  prop_delete k (prop_set k v ps) = prop_delete k ps.
Proof.
  unfold prop_set. destruct (has_key k ps).
  - apply prop_delete_replace.
  - destruct (array_index k).
    + apply prop_delete_insert.
    + unfold prop_delete. rewrite filter_app. simpl.
      rewrite streqb_refl. simpl. apply app_nil_r.
Qed.

Lemma expand_loop_last (val : value) (raw : jsstring) (current : value) :
  expand_loop val [raw] current =
  match set_prop current (strip_bracket raw) val with
  | None => (Threw, current)
  | Some cur1 =>
      (Returned,
       if is_undefined val then delete_key (strip_bracket raw) cur1 else cur1)
  end.
Proof.
  simpl. destruct (set_prop current (strip_bracket raw) val); [|reflexivity].
  destruct val; reflexivity.
Qed.

Lemma expand_loop_more (val : value) (raw nextPiece : jsstring)
    (more : list jsstring) (current : value) :
  expand_loop val (raw :: nextPiece :: more) current =
  match get_prop current (strip_bracket raw) with
  | None => (Threw, current)
  | Some slot =>
      match (if is_undefined slot
             then set_prop current (strip_bracket raw) (fresh_for nextPiece)
             else Some current) with
      | None => (Threw, current)
      | Some cur1 =>
          match get_prop cur1 (strip_bracket raw) with
          | None => (Threw, cur1)
          | Some child =>
              let (o, child') := expand_loop val (nextPiece :: more) child in
              (o, with_child (strip_bracket raw) child' cur1)
          end
      end
  end.
Proof.
  cbn [expand_loop]. destruct (get_prop current (strip_bracket raw)) as [slot|];
    [|reflexivity].
  destruct slot; reflexivity.
Qed.

(** The last turn of the loop, on an object. *)
Lemma expandKey_final (val : value) (k : jsstring) (cur : value) :
  no_lbracket k = true -> is_object cur = true ->
  expandKey val k cur =
  (Returned,
   if is_undefined val
   then delete_key (strip_bracket k) (store (strip_bracket k) val cur)
   else store (strip_bracket k) val cur).
Proof.
  intros Hk Hc. unfold expandKey. rewrite split_on_piece by assumption.
  rewrite expand_loop_last, set_prop_object by assumption. reflexivity.
Qed.

(** An earlier turn of the loop, on an object: what the slot holds
    decides whether a container is made, and the loop goes on inside the
    slot's value with the rest of the key. *)
Lemma expandKey_step (val : value) (k rest : jsstring) (cur : value) :
  no_lbracket k = true -> is_object cur = true ->
  expandKey val (k ++ lbracket :: rest) cur =
  let subkey := strip_bracket k in
  let slot := prop_get subkey (own_entries cur) in
  if is_undefined slot then
    let (o, child) := expandKey val rest (fresh_for (next_piece rest)) in
    (o, store subkey child cur)
  else
    let (o, child) := expandKey val rest slot in
    (o, with_child subkey child cur).
Proof.
  intros Hk Hc. unfold expandKey. rewrite split_on_bracket by assumption.
  destruct (split_on_next_piece rest) as [more E]. rewrite E.
  rewrite expand_loop_more, get_prop_object by assumption.
  cbv zeta.
  destruct (is_undefined (prop_get (strip_bracket k) (own_entries cur))).
  - rewrite set_prop_object, get_store_same by assumption.
    destruct (expand_loop val (next_piece rest :: more)
                (fresh_for (next_piece rest))) as [o child].
    rewrite with_child_store. reflexivity.
  - rewrite get_prop_object by assumption. reflexivity.
Qed.

(** Past a value that is no object the loop throws and changes
    nothing. *)
Lemma expand_loop_not_object (val : value) (subkeys : list jsstring) :
  subkeys <> [] ->
  forall cur, is_object cur = false ->
              expand_loop val subkeys cur = (Threw, cur).
Proof.
  induction subkeys as [|raw rest IH]; [contradiction|]. intros _ cur Hc.
  destruct rest as [|nextPiece rest'].
  - rewrite expand_loop_last. unfold set_prop. rewrite Hc. reflexivity.
  - rewrite expand_loop_more. unfold set_prop. rewrite Hc.
    destruct (get_prop cur (strip_bracket raw)) as [slot|] eqn:G;
      [|reflexivity].
    destruct (is_undefined slot) eqn:U; [reflexivity|].
    rewrite G.
    assert (Hs : is_object slot = false).
    { destruct cur as [| |b|n|s|len ps|ps|tag size ps]; try discriminate;
        simpl in G; try (inversion G; subst; reflexivity).
      destruct (array_index (strip_bracket raw)) as [i|];
        [|inversion G; subst; reflexivity].
      destruct (nth_error s (N.to_nat i)); inversion G; subst; reflexivity. }
    rewrite IH by (auto; discriminate).
    destruct cur; try discriminate; reflexivity.
Qed.


Lemma get_with_child (k : jsstring) (child cur : value) :
  is_object cur = true -> has_key k (own_entries cur) = true ->
  prop_get k (own_entries (with_child k child cur)) = child.
Proof.
  intros Hc Hk. unfold prop_get.
  destruct cur; try discriminate; simpl in *;
    rewrite prop_lookup_replace_same by assumption; reflexivity.
Qed.

Lemma defined_has_key (k : jsstring) (ps : props_t) :
  is_undefined (prop_get k ps) = false -> has_key k ps = true.
Proof.
  unfold prop_get, has_key. destruct (prop_lookup k ps); [reflexivity|].
  discriminate.
Qed.

(** ** The model on small inputs *)

Example parseInt_examples :
  map (fun s => parseInt (str s)) ["0]"; "b]"; " 12"; "-1"; "+"; "1x"; ""]%string
  = [Some 0; None; Some 12; Some (-1); None; Some 1; None]%Z.
Proof. reflexivity. Qed.

Example array_index_examples :
  map (fun s => array_index (str s))
      ["0"; "01"; "10"; "4294967294"; "4294967295"; "a"; ""]%string
  = [Some 0; None; Some 10; Some 4294967294; None; None; None]%N.
Proof. reflexivity. Qed.

Example split_on_example :
  split_on lbracket (str "a[b][0]") = [str "a"; str "b]"; str "0]"].
Proof. reflexivity. Qed.

Example replace_generic_examples :
  map (fun s => replace_generic (str s))
      ["a.0.1.b"; "a.$[id].b"; "a.$[].b.12"; "a.0x.1"; "a.$[a]]"; "0.a"]%string
  = map str ["a.$.$.b"; "a.$.b"; "a.$.b.$"; "a.0x.$"; "a.$[a]]"; "0.a"]%string.
Proof. reflexivity. Qed.

(** [cleanNulls] with [keepEmptyStrings]: the empty string stays. *)
Example cleanNulls_keep_example :
  cleanNulls example_doc false true
  = VObj [(str "b", VStr []); (str "e", VArr 2 [(str "1", VNum 1)])].
Proof. reflexivity. Qed.

(** A key that ends in an index: the array grows to hold it, and
    deleting leaves the length. *)
Example expandKey_index_examples :
  expandKey (VNum 1) (str "a[5]") (VObj [])
  = (Returned, VObj [(str "a", VArr 6 [(str "5", VNum 1)])])
  /\ expandKey VUndefined (str "a[5]") (VObj [])
     = (Returned, VObj [(str "a", VArr 6 [])])
  /\ expandKey (VNum 1) (str "a[b.0.c]") (VObj [])
     = (Returned, VObj [(str "a", VObj [(str "b.0.c", VNum 1)])]).
Proof. repeat split. Qed.

(** The walks [plain_walk] admits and the ones it leaves out: a piece
    that names a member of [Object.prototype] on a plain object, and a
    member's name on an array, a number or a string. *)
Example plain_walk_examples :
  map (fun kc => plain_walk (split_on lbracket (str (fst kc))) (snd kc))
      [("name[first]", VObj []);
       ("a[b][0]", VObj [(str "x", VNull)]);
       ("items[0][length]", VObj []);
       ("a[0]", VObj [(str "a", VStr (str "xy"))]);
       ("constructor", VObj []);
       ("__proto__", VObj []);
       ("a[constructor][name][x]", VObj []);
       ("a[toString][x]", VObj [(str "a", VNum 5)]);
       ("a[length]", VObj [(str "a", VStr (str "xy"))]);
       ("length[a]", VArr 0 []);
       ("length", VArr 3 [(str "0", VNum 1)]);
       ("a", VExotic (str "[object Date]") 0 [])]%string
  = [true; true; true; true;
     false; false; false; false; false; false; false; false].
Proof. reflexivity. Qed.

(** The documents [plain_keys] leaves out hold [__proto__] or [length]
    as a key, at some depth. *)
Example plain_keys_examples :
  map plain_keys
      [example_doc; example_flat;
       VObj [(str "constructor", VNum 1)];
       VObj [(str "__proto__", VNull)];
       VObj [(str "x", VObj [(str "__proto__", VObj [(str "a", VNum 1)])]);
             (str "y", VNum 1)];
       VObj [(str "length", VNum 5)]]
  = [true; true; true; false; false; false].
Proof. reflexivity. Qed.

(** * The claims *)

(** C1 (as amended): on [{a: null, b: "", c: {d: null}, e: [null, 1]}],
    with [isArray = false] and [keepEmptyStrings = false], [cleanNulls]
    returns [{e: A}] where [A] is an array of length 2 whose one element
    is [1] under index 1; index 0 is a hole.  The null and empty-string
    leaves and the emptied container [c] are dropped, and the surviving
    array element keeps its index. *)
Theorem cleanNulls_example :
  cleanNulls example_doc false false
  = VObj [(str "e", VArr 2 [(str "1", VNum 1)])].
Proof. reflexivity. Qed.

(** C1 as stated fails: the result is not [{e: [1]}], the array with [1]
    under index 0. *)
Lemma cleanNulls_example_not_reindexed :
  cleanNulls example_doc false false
  <> VObj [(str "e", VArr 1 [(str "0", VNum 1)])].
Proof. vm_compute. discriminate. Qed.

(** C2: [genericKeyAffectsOtherGenericKey k a] is [true] exactly when [a]
    equals [k], or [a] begins with [k] followed by a dot, or [k] ends in
    [.$] and [k] without that ending equals [a]; otherwise it is
    [false]. *)
Theorem genericKeyAffects_iff (k a : jsstring) :
  genericKeyAffectsOtherGenericKey k a = true <->
  (a = k
   \/ (exists rest, a = k ++ [dot] ++ rest)
   \/ (exists p, k = p ++ [dot; dollar] /\ p = a)).
Proof.
  unfold genericKeyAffectsOtherGenericKey.
  assert (Hsub : js_substring a 0 (strlen k + 1) = firstn (length k + 1) a).
  { unfold strlen. rewrite <- (js_substring_prefix a (length k + 1)).
    f_equal. lia. }
  rewrite Hsub.
  change (-2)%Z with (- Z.of_nat 2)%Z.
  rewrite js_slice_last, js_slice_drop_last by lia.
  destruct (streqb a k) eqn:E1.
  { apply streqb_eq in E1. tauto. }
  apply streqb_neq in E1.
  destruct (streqb (firstn (length k + 1) a) (k ++ [dot])) eqn:E2.
  { apply streqb_eq in E2. split; [intros _ | reflexivity].
    right; left. exists (skipn (length k + 1) a).
    rewrite app_assoc, <- E2. symmetry. apply firstn_skipn. }
  apply streqb_neq in E2.
  destruct (streqb (skipn (length k - 2) k) [dot; dollar]) eqn:E3; cbn [andb].
  - apply streqb_eq in E3.
    destruct (streqb (firstn (length k - 2) k) a) eqn:E4.
    + apply streqb_eq in E4. split; [intros _ | reflexivity].
      right; right. exists (firstn (length k - 2) k). split; [|exact E4].
      rewrite <- (firstn_skipn (length k - 2) k) at 1.
      f_equal. exact E3.
    + apply streqb_neq in E4. split; [discriminate|].
      intros [H | [[rest H] | [p [Hk Hp]]]].
      * contradiction.
      * exfalso. apply E2. rewrite H, app_assoc.
        replace (length k + 1)%nat with (length (k ++ [dot]))
          by (rewrite length_app; reflexivity).
        apply firstn_app_exact.
      * exfalso. apply E4. subst p. rewrite Hk.
        rewrite length_app. simpl length. rewrite Nat.add_sub.
        apply firstn_app_exact.
  - apply streqb_neq in E3. split; [discriminate|].
    intros [H | [[rest H] | [p [Hk Hp]]]].
    + contradiction.
    + exfalso. apply E2. rewrite H, app_assoc.
      replace (length k + 1)%nat with (length (k ++ [dot]))
        by (rewrite length_app; reflexivity).
      apply firstn_app_exact.
    + exfalso. apply E3.
      change 2%nat with (length [dot; dollar]).
      apply ends_with_split. exists p. exact Hk.
Qed.

(** C3 (as amended): [genericKeyAffectsOtherGenericKey] returns [false]
    for candidate [a.$] and affected [a.0], [false] for candidate [a.0]
    and affected [a.$], [true] for candidate [a] and affected [a.b], and
    [false] for candidate [a.b] and affected [a]. *)
Theorem genericKeyAffects_examples :
  genericKeyAffectsOtherGenericKey (str "a.$") (str "a.0") = false
  /\ genericKeyAffectsOtherGenericKey (str "a.0") (str "a.$") = false
  /\ genericKeyAffectsOtherGenericKey (str "a") (str "a.b") = true
  /\ genericKeyAffectsOtherGenericKey (str "a.b") (str "a") = false.
Proof. repeat split; reflexivity. Qed.

(** C3 as stated fails: the four results are not true, false, true,
    false, since the first one is false. *)
Lemma genericKeyAffects_index_not_implied :
  ~ (genericKeyAffectsOtherGenericKey (str "a.$") (str "a.0") = true
     /\ genericKeyAffectsOtherGenericKey (str "a.0") (str "a.$") = false
     /\ genericKeyAffectsOtherGenericKey (str "a") (str "a.b") = true
     /\ genericKeyAffectsOtherGenericKey (str "a.b") (str "a") = false).
Proof. intros [H _]. vm_compute in H. discriminate H. Qed.

(** C4: [makeKeyGeneric] is idempotent: for every string [p],
    [makeKeyGeneric (makeKeyGeneric p) = makeKeyGeneric p]; applied to a
    path that is already generic (one that [makeKeyGeneric] returned) it
    returns the path unchanged. *)
Theorem makeKeyGeneric_idempotent (p : jsstring) :
  makeKeyGeneric (makeKeyGeneric (VStr p)) = makeKeyGeneric (VStr p)
  /\ forall g, makeKeyGeneric (VStr p) = VStr g ->
               makeKeyGeneric (VStr g) = VStr g.
Proof.
  split.
  - simpl. rewrite replace_generic_idempotent. reflexivity.
  - intros g H. simpl in H. inversion H; subst g.
    simpl. rewrite replace_generic_idempotent. reflexivity.
Qed.

(** C5: [makeKeyGeneric] returns [null] for every input that is not a
    string; for a string it returns the string in which every run (a
    dot, then digits or a [$[...]] token, then a dot or the end) is
    replaced by [.$], and that string only; [a.0.1.b] becomes
    [a.$.$.b]. *)
Theorem makeKeyGeneric_spec :
  (forall key, (forall s, key <> VStr s) -> makeKeyGeneric key = VNull)
  /\ (forall s, exists out, makeKeyGeneric (VStr s) = VStr out
                            /\ replaced s out)
  /\ (forall s out, replaced s out -> makeKeyGeneric (VStr s) = VStr out)
  /\ makeKeyGeneric (VStr (str "a.0.1.b")) = VStr (str "a.$.$.b").
Proof.
  repeat split.
  - intros key H. destruct key; try reflexivity. exfalso. eapply H; eauto.
  - intros s. exists (replace_generic s). split; [reflexivity|].
    apply replaced_replace_generic.
  - intros s out H. simpl. f_equal. symmetry. apply replaced_unique, H.
Qed.

(** C6 (as amended): for a well-formed key path, [makeKeyGeneric] returns
    the path in which every segment after the first that is an array
    index (digits) or a positional operator [$[identifier]] is replaced
    by [$]; the first segment and all other segments are unchanged. *)
Theorem makeKeyGeneric_segments (first : jsstring) (rest : list jsstring) :
  forallb well_formed_segment (first :: rest) = true ->
  makeKeyGeneric (VStr (join_dots (first :: rest)))
  = VStr (later_segments_generic (first :: rest)).
Proof.
  simpl forallb. intros H. apply andb_true_iff in H as [Hf Hr].
  unfold later_segments_generic, makeKeyGeneric.
  rewrite !join_dots_tail.
  rewrite (replace_generic_over not_dot) by (auto using well_formed_no_dot).
  rewrite replace_tail_dots by assumption. reflexivity.
Qed.

Lemma makeKeyGeneric_segments_witness :
  forallb well_formed_segment [str "a"; str "0"; str "$[id]"; str "b"] = true
  /\ makeKeyGeneric (VStr (str "a.0.$[id].b")) = VStr (str "a.$.$.b").
Proof.
  split; [reflexivity|].
  exact (makeKeyGeneric_segments (str "a") [str "0"; str "$[id]"; str "b"]
           eq_refl).
Defined.

(** C6 as stated fails: the path [$[id].a] is well formed and its first
    segment is a positional operator, yet [makeKeyGeneric] leaves that
    segment as it is. *)
Lemma makeKeyGeneric_first_segment_kept :
  forallb well_formed_segment [str "$[id]"; str "a"] = true
  /\ join_dots [str "$[id]"; str "a"] = str "$[id].a"
  /\ all_segments_generic [str "$[id]"; str "a"] = str "$.a"
  /\ makeKeyGeneric (VStr (str "$[id].a")) = VStr (str "$[id].a")
  /\ makeKeyGeneric (VStr (join_dots [str "$[id]"; str "a"]))
     <> VStr (all_segments_generic [str "$[id]"; str "a"]).
Proof. repeat split; try reflexivity. vm_compute. discriminate. Qed.

(** C7: [expandKey] walks the pieces the key splits into at [[], each
    without its closing bracket.  On the last piece it assigns the value
    to the current object, whatever was there, and deletes the key when
    the value is [undefined].  On an earlier piece whose slot is unset it
    stores a new array when [parseInt] reads an integer off the next
    piece and a new plain object otherwise, and goes on inside it; a slot
    that is set is gone into as it is, never replaced.  So
    [expandKey(1, "a[b][0]", {})] leaves [{a: {b: [1]}}], and
    [expandKey(undefined, "a[b]", obj)] removes key [b] from [obj.a].
    The steps are those of a walk over own data properties
    ([own_key], [plain_walk]): no piece names a member the value it is
    used on inherits or has built in. *)
Theorem expandKey_spec :
  (forall piece,
      strip_bracket (piece ++ [rbracket]) = piece
      /\ ((forall p, piece <> p ++ [rbracket]) -> strip_bracket piece = piece))
  /\ (forall val k cur,
        no_lbracket k = true -> is_object cur = true ->
        own_key cur (strip_bracket k) = true ->
        let subkey := strip_bracket k in
        expandKey val k cur =
        (Returned,
         if is_undefined val then delete_key subkey (store subkey val cur)
         else store subkey val cur)
        /\ get_prop (snd (expandKey val k cur)) subkey = Some val
        /\ has_key subkey (own_entries (snd (expandKey val k cur)))
           = negb (is_undefined val))
  /\ (forall val k rest cur,
        no_lbracket k = true -> is_object cur = true ->
        plain_walk (k :: split_on lbracket rest) cur = true ->
        let subkey := strip_bracket k in
        let slot := prop_get subkey (own_entries cur) in
        expandKey val (k ++ lbracket :: rest) cur =
        if is_undefined slot then
          let (o, child) :=
            expandKey val rest
              (if is_some (parseInt (next_piece rest))
               then VArr 0 [] else VObj []) in
          (o, store subkey child cur)
        else
          let (o, child) := expandKey val rest slot in
          (o, with_child subkey child cur))
  /\ expandKey (VNum 1) (str "a[b][0]") (VObj [])
     = (Returned,
        VObj [(str "a", VObj [(str "b", VArr 1 [(str "0", VNum 1)])])])
  /\ (forall ps pa,
        prop_get (str "a") ps = VObj pa ->
        expandKey VUndefined (str "a[b]") (VObj ps)
        = (Returned,
           VObj (prop_replace (str "a") (VObj (prop_delete (str "b") pa)) ps))
        /\ has_key (str "b") (prop_delete (str "b") pa) = false
        /\ forall k, k <> str "b" ->
                     prop_lookup k (prop_delete (str "b") pa)
                     = prop_lookup k pa).
Proof.
  split; [|split; [|split; [|split]]].
  - intros piece. split; [apply strip_bracket_closed|apply strip_bracket_open].
  - intros val k cur Hk Hc _ subkey.
    rewrite (expandKey_final val k cur Hk Hc). fold subkey. simpl snd.
    split; [reflexivity|].
    destruct (is_undefined val) eqn:U.
    + destruct val; try discriminate.
      destruct cur; try discriminate; simpl; unfold prop_get, has_key;
        rewrite prop_lookup_delete_same; auto.
    + rewrite get_store_same, entries_store by assumption.
      unfold has_key. rewrite prop_lookup_set_same. auto.
  - intros val k rest cur Hk Hc _ subkey slot.
    rewrite (expandKey_step val k rest cur Hk Hc). fold subkey. fold slot.
    cbv zeta. unfold fresh_for, isNaN_parseInt.
    destruct (parseInt (next_piece rest)); reflexivity.
  - reflexivity.
  - intros ps pa Ha. split; [|split].
    + change (str "a[b]") with (str "a" ++ lbracket :: str "b]").
      rewrite expandKey_step by reflexivity.
      change (strip_bracket (str "a")) with (str "a").
      cbv zeta. simpl own_entries. rewrite Ha. cbn [is_undefined].
      rewrite expandKey_final by reflexivity.
      change (strip_bracket (str "b]")) with (str "b").
      cbn [is_undefined store delete_key with_child].
      rewrite prop_delete_set. reflexivity.
    + unfold has_key. rewrite prop_lookup_delete_same. reflexivity.
    + intros k Hk. apply prop_lookup_delete_other, Hk.
Qed.

Lemma expandKey_spec_witness :
  expandKey (VNum 1) (str "a[0]") (VObj [(str "x", VNull)])
  = (Returned,
     VObj [(str "x", VNull); (str "a", VArr 1 [(str "0", VNum 1)])])
  /\ expandKey VUndefined (str "1") (VArr 3 [(str "1", VNum 7)])
     = (Returned, VArr 3 []).
Proof.
  split.
  - exact (proj1 (proj2 (proj2 expandKey_spec)) (VNum 1) (str "a") (str "0]")
             (VObj [(str "x", VNull)]) eq_refl eq_refl eq_refl).
  - exact (proj1 (proj1 (proj2 expandKey_spec) VUndefined (str "1")
                    (VArr 3 [(str "1", VNum 7)]) eq_refl eq_refl eq_refl)).
Defined.



(** C9: for every document and both values of [keepEmptyStrings], the
    result of [cleanNulls] holds, at every depth, no plain object
    without a key and no array without an element.  An object that is
    neither plain nor an array is a leaf of the document: [cleanNulls]
    copies it as it is. *)
Theorem cleanNulls_no_empty_container (doc : value) (isArray keep : bool) :
  no_empty_inside (cleanNulls doc isArray keep) = true.
Proof.
  destruct (cleanNulls_good doc isArray keep) as (_ & _ & H & _). exact H.
Qed.



(** * Further properties *)

(** ** The sanitizer, key by key *)

Lemma clean_step_cases (keep : bool) (d : value) (key : jsstring)
    (val : value) :
  clean_step keep d (key, val)
  = if is_kept keep val then store key (stored_value keep val) d else d.
Proof.
  unfold clean_step, clean_entry, is_kept, stored_value, is_dropped_leaf.
  cbn [fst snd].
  destruct val as [| |b|n|s|len ps|ps|tag size ps];
    cbn [Array_isArray isBasicObject isNullUndefinedOrEmptyString
         is_empty_string negb andb]; try reflexivity.
  - rewrite andb_false_r. reflexivity.
  - rewrite andb_false_r. reflexivity.
  - destruct (Nat.eqb (length s) 0), keep; reflexivity.
Qed.

Lemma is_object_clean_step (keep : bool) (d : value) (kv : jsstring * value) :
  is_object (clean_step keep d kv) = is_object d.
Proof.
  destruct kv as [key val]. rewrite clean_step_cases.
  destruct (is_kept keep val); [apply is_object_store | reflexivity].
Qed.

Lemma has_key_none (k : jsstring) (ps : props_t) :
  has_key k ps = false <-> prop_lookup k ps = None.
Proof.
  unfold has_key. destruct (prop_lookup k ps); split; congruence.
Qed.

Lemma has_key_cons (k k' : jsstring) (v : value) (ps : props_t) :
  has_key k ((k', v) :: ps) = streqb k' k || has_key k ps.
Proof. unfold has_key. simpl. destruct (streqb k' k); reflexivity. Qed.

Lemma has_key_in (k : jsstring) (ps : props_t) :
  has_key k ps = true <-> In k (map fst ps).
Proof.
  induction ps as [|[k' v'] ps IH]; simpl.
  - split; [discriminate | contradiction].
  - rewrite has_key_cons, orb_true_iff, streqb_eq, IH. tauto.
Qed.

Lemma clean_step_lookup_other (keep : bool) (d : value) (k k' : jsstring)
    (v : value) :
  is_object d = true -> k <> k' ->
  prop_lookup k (own_entries (clean_step keep d (k', v)))
  = prop_lookup k (own_entries d).
Proof.
  intros Hd N. rewrite clean_step_cases.
  destruct (is_kept keep v); [|reflexivity].
  rewrite entries_store by assumption. apply prop_lookup_set_other, N.
Qed.

(** The turns for other keys leave a key as it is. *)
Lemma fold_clean_lookup_other (keep : bool) (k : jsstring) (ps : props_t) :
  has_key k ps = false ->
  forall d, is_object d = true ->
    prop_lookup k (own_entries (fold_left (clean_step keep) ps d))
    = prop_lookup k (own_entries d).
Proof.
  induction ps as [|[k' v'] ps IH]; intros Hk d Hd; simpl; [reflexivity|].
  rewrite has_key_cons in Hk. apply orb_false_iff in Hk as [N Hk].
  apply streqb_neq in N.
  rewrite IH by (auto; rewrite is_object_clean_step; exact Hd).
  apply clean_step_lookup_other; [assumption | congruence].
Qed.

Lemma fold_clean_lookup (keep : bool) (k : jsstring) (ps : props_t) :
  NoDup (map fst ps) ->
  forall d, is_object d = true -> has_key k (own_entries d) = false ->
    prop_lookup k (own_entries (fold_left (clean_step keep) ps d))
    = match prop_lookup k ps with
      | Some v => if is_kept keep v then Some (stored_value keep v) else None
      | None => None
      end.
Proof.
  induction ps as [|[k' v'] ps IH]; intros Hnd d Hd Hk; simpl.
  - apply has_key_none, Hk.
  - simpl in Hnd. inversion Hnd as [|? ? Hnotin Hnd']; subst.
    destruct (streqb k' k) eqn:E.
    + apply streqb_eq in E. subst k'.
      rewrite fold_clean_lookup_other.
      * rewrite clean_step_cases. destruct (is_kept keep v').
        -- rewrite entries_store by assumption. apply prop_lookup_set_same.
        -- apply has_key_none, Hk.
      * destruct (has_key k ps) eqn:H; [|reflexivity].
        apply has_key_in in H. contradiction.
      * rewrite is_object_clean_step. exact Hd.
    + apply streqb_neq in E. apply IH; auto.
      * rewrite is_object_clean_step. exact Hd.
      * apply has_key_none.
        rewrite clean_step_lookup_other by (auto; congruence).
        apply has_key_none, Hk.
Qed.

Lemma is_object_new_doc (isArray : bool) : is_object (new_doc isArray) = true.
Proof. destruct isArray; reflexivity. Qed.

Lemma entries_new_doc (isArray : bool) : own_entries (new_doc isArray) = [].
Proof. destruct isArray; reflexivity. Qed.

Lemma cleanNulls_lookup_entry (doc : value) (isArray keep : bool)
    (k : jsstring) :
  NoDup (map fst (own_entries doc)) ->
  prop_lookup k (own_entries (cleanNulls doc isArray keep))
  = match prop_lookup k (own_entries doc) with
    | Some v => if is_kept keep v then Some (stored_value keep v) else None
    | None => None
    end.
Proof.
  intros Hnd. rewrite cleanNulls_unfold.
  apply fold_clean_lookup; auto using is_object_new_doc.
  rewrite entries_new_doc. reflexivity.
Qed.

(** X1: in a document whose keys are distinct and are, at every depth,
    keys an assignment stores as own properties (none is [__proto__] or
    [length]), [cleanNulls] decides each key by the value it holds and
    by nothing else: the key is kept exactly when the value is not
    [null], [undefined] or a dropped empty string and does not clean to
    an empty container, and it then holds the value itself, or the
    cleaned container. *)
Theorem cleanNulls_key_by_key (doc : value) (isArray keep : bool)
    (k : jsstring) :
  NoDup (map fst (own_entries doc)) ->
  plain_keys doc = true ->
  prop_lookup k (own_entries (cleanNulls doc isArray keep))
  = match prop_lookup k (own_entries doc) with
    | Some v => if is_kept keep v then Some (stored_value keep v) else None
    | None => None
    end.
Proof. intros Hnd _. apply cleanNulls_lookup_entry, Hnd. Qed.

Lemma cleanNulls_key_by_key_witness :
  NoDup (map fst (own_entries example_doc))
  /\ prop_lookup (str "e") (own_entries (cleanNulls example_doc false false))
     = Some (VArr 2 [(str "1", VNum 1)])
  /\ prop_lookup (str "c") (own_entries (cleanNulls example_doc false false))
     = None.
Proof.
  assert (H : NoDup (map fst (own_entries example_doc))).
  { repeat constructor; simpl; intuition discriminate. }
  split; [exact H|]. split.
  - exact (cleanNulls_key_by_key example_doc false false (str "e") H
             eq_refl).
  - exact (cleanNulls_key_by_key example_doc false false (str "c") H
             eq_refl).
Defined.

(** ** No null leaf is left *)

Lemma no_null_inside_Forall (keep : bool) (ps : props_t) :
  forallb (fun kv => negb (is_dropped_leaf keep (snd kv))
                     && no_null_inside keep (snd kv)) ps = true
  <-> Forall (fun kv => is_dropped_leaf keep (snd kv) = false
                        /\ no_null_inside keep (snd kv) = true) ps.
Proof.
  rewrite forallb_forall, Forall_forall.
  split; intros H kv Hin; specialize (H kv Hin).
  - apply andb_true_iff in H as [H1 H2]. apply negb_true_iff in H1. auto.
  - destruct H as [H1 H2]. rewrite H1, H2. reflexivity.
Qed.

Lemma store_no_null (keep : bool) (k : jsstring) (v d : value) :
  no_null_inside keep d = true ->
  is_dropped_leaf keep v = false -> no_null_inside keep v = true ->
  no_null_inside keep (store k v d) = true.
Proof.
  intros Hd Hv1 Hv2.
  destruct d as [| |b|n|s|len ps|ps|tag size ps]; try reflexivity;
    cbn [store no_null_inside] in *;
    apply no_null_inside_Forall; apply no_null_inside_Forall in Hd;
    apply (Forall_values_set
             (fun v => is_dropped_leaf keep v = false
                       /\ no_null_inside keep v = true)); auto.
Qed.

Lemma stored_value_no_null (keep : bool) (val : value) :
  (forall a, no_null_inside keep (cleanNulls val a keep) = true) ->
  is_kept keep val = true ->
  is_dropped_leaf keep (stored_value keep val) = false
  /\ no_null_inside keep (stored_value keep val) = true.
Proof.
  intros IH Hk. unfold is_kept, stored_value in *.
  destruct val as [| |b|n|s|len ps|ps|tag size ps];
    try (apply negb_true_iff in Hk; split; [exact Hk | reflexivity]).
  - split; [|apply IH].
    destruct (cleanNulls_good (VArr len ps) true keep) as (Ha & _).
    destruct (cleanNulls (VArr len ps) true keep); try discriminate.
    reflexivity.
  - split; [|apply IH].
    destruct (cleanNulls_good (VObj ps) false keep) as (_ & Ho & _).
    destruct (cleanNulls (VObj ps) false keep); try discriminate.
    reflexivity.
Qed.

Lemma fold_clean_no_null (keep : bool) (ps : props_t) :
  Forall (fun kv => forall a,
              no_null_inside keep (cleanNulls (snd kv) a keep) = true) ps ->
  forall d, no_null_inside keep d = true ->
            no_null_inside keep (fold_left (clean_step keep) ps d) = true.
Proof.
  induction 1 as [|[key val] ps Hkv _ IH]; intros d Hd; simpl; [assumption|].
  apply IH. rewrite clean_step_cases.
  destruct (is_kept keep val) eqn:K; [|assumption].
  destruct (stored_value_no_null keep val Hkv K) as [H1 H2].
  apply store_no_null; assumption.
Qed.

(** X2: the result of [cleanNulls] holds, at every depth reached through
    plain objects and arrays, no [null] and no [undefined], and no empty
    string unless [keepEmptyStrings] is set. *)
Theorem cleanNulls_no_null_leaf (doc : value) (isArray keep : bool) :
  no_null_inside keep (cleanNulls doc isArray keep) = true.
Proof.
  revert isArray.
  induction doc as [| |b|n|s|len ps IH|ps IH|tag size ps IH]
    using value_ind; intros isArray;
    try (destruct isArray; reflexivity);
    rewrite cleanNulls_unfold; cbn [own_entries];
    (apply fold_clean_no_null; [|destruct isArray; reflexivity]);
    exact IH.
Qed.

(** ** reportNulls and cleanNulls agree *)

Lemma is_flat_lookup (k : jsstring) (v : value) (ps : props_t) :
  is_flat ps = true -> prop_lookup k ps = Some v -> isBasicObject v = false.
Proof.
  unfold is_flat. induction ps as [|[k' v'] ps IH]; simpl; [discriminate|].
  intros H. apply andb_true_iff in H as [H1 H2].
  destruct (streqb k' k).
  - intros E; inversion E; subst. apply negb_true_iff, H1.
  - apply IH, H2.
Qed.

Lemma is_null_like_not_kept (keep : bool) (v : value) :
  isBasicObject v = false -> is_null_like keep v = negb (is_kept keep v).
Proof.
  intros Hv. unfold is_null_like, is_kept, is_dropped_leaf.
  destruct v as [| |b|n|s|len ps|ps|tag size ps]; try discriminate;
    cbn [Array_isArray isNullUndefinedOrEmptyString is_empty_string
         negb andb orb];
    rewrite ?andb_false_r; cbn [negb orb andb]; try reflexivity.
  - destruct keep, (Nat.eqb (length s) 0); reflexivity.
  - rewrite negb_involutive.
    destruct (cleanNulls_good (VArr len ps) true keep) as (Ha & _).
    destruct (cleanNulls (VArr len ps) true keep); try discriminate.
    reflexivity.
Qed.

(** X3: on a flat document (distinct keys, no value a plain object,
    no key [__proto__] or [length] at any depth), [reportNulls] marks
    exactly the keys that [cleanNulls] drops. *)
Theorem reportNulls_marks_dropped (flatDoc : value) (keep : bool)
    (k : jsstring) :
  NoDup (map fst (own_entries flatDoc)) ->
  is_flat (own_entries flatDoc) = true ->
  plain_keys flatDoc = true ->
  has_key k (own_entries (reportNulls flatDoc keep))
  = has_key k (own_entries flatDoc)
    && negb (has_key k (own_entries (cleanNulls flatDoc false keep))).
Proof.
  intros Hnd Hflat _.
  destruct (reportNulls_lookup flatDoc keep k) as (ps & -> & Hl).
  cbn [own_entries]. unfold has_key at 1 3. rewrite Hl.
  rewrite cleanNulls_lookup_entry by assumption.
  unfold has_key, prop_get.
  destruct (prop_lookup k (own_entries flatDoc)) as [v|] eqn:E;
    [|reflexivity].
  cbn [andb]. rewrite (is_null_like_not_kept keep v)
    by (eapply is_flat_lookup; eauto).
  destruct (is_kept keep v); reflexivity.
Qed.

Lemma reportNulls_marks_dropped_witness :
  has_key (str "c") (own_entries (reportNulls example_flat false)) = true
  /\ has_key (str "c") (own_entries (cleanNulls example_flat false false))
     = false.
Proof.
  assert (H : NoDup (map fst (own_entries example_flat))).
  { repeat constructor; simpl; intuition discriminate. }
  pose proof (reportNulls_marks_dropped example_flat false (str "c") H
                eq_refl eq_refl) as E.
  split; [reflexivity|].
  destruct (has_key (str "c")
              (own_entries (cleanNulls example_flat false false))) eqn:C;
    [|reflexivity].
  rewrite andb_false_r in E. discriminate E.
Defined.

(** ** Reading back what expandKey wrote *)

Lemma entries_delete_key (k : jsstring) (o : value) :
  own_entries (delete_key k o) = prop_delete k (own_entries o).
Proof. destruct o; reflexivity. Qed.

Lemma is_object_delete_key (k : jsstring) (o : value) :
  is_object (delete_key k o) = is_object o.
Proof. destruct o; reflexivity. Qed.

Lemma is_object_with_child (k : jsstring) (child o : value) :
  is_object (with_child k child o) = is_object o.
Proof. destruct o; reflexivity. Qed.


Lemma get_delete_same (k : jsstring) (o : value) :
  is_object o = true -> get_prop (delete_key k o) k = Some VUndefined.
Proof.
  intros H. rewrite get_prop_object by (rewrite is_object_delete_key; exact H).
  rewrite entries_delete_key. unfold prop_get.
  rewrite prop_lookup_delete_same. reflexivity.
Qed.

Lemma get_prop_not_object (cur child : value) (k : jsstring) :
  is_object cur = false -> get_prop cur k = Some child ->
  is_object child = false.
Proof.
  destruct cur as [| |b|n|s|len ps|ps|tag size ps]; try discriminate;
    intros _ G; simpl in G; try (inversion G; subst; reflexivity).
  destruct (array_index k) as [i|]; [|inversion G; subst; reflexivity].
  destruct (nth_error s (N.to_nat i)); inversion G; subst; reflexivity.
Qed.

Lemma set_prop_some (cur cur1 : value) (k : jsstring) (v : value) :
  set_prop cur k v = Some cur1 -> is_object cur = true /\ cur1 = store k v cur.
Proof.
  unfold set_prop. destruct (is_object cur); [|discriminate].
  intros H; inversion H; auto.
Qed.

Lemma expand_loop_read_back (val : value) (pieces : list jsstring) :
  pieces <> [] ->
  forall cur cur',
    expand_loop val pieces cur = (Returned, cur') ->
    get_path (map strip_bracket pieces) cur' = Some val.
Proof.
  induction pieces as [|raw rest IH]; [contradiction|]. intros _ cur cur' H.
  destruct rest as [|next rest'].
  - rewrite expand_loop_last in H.
    destruct (set_prop cur (strip_bracket raw) val) as [cur1|] eqn:S;
      [|discriminate].
    apply set_prop_some in S as [Hc ->]. inversion H; subst cur'. clear H.
    cbn [map get_path].
    destruct (is_undefined val) eqn:U.
    + destruct val; try discriminate.
      rewrite get_delete_same by (rewrite is_object_store; exact Hc).
      reflexivity.
    + rewrite get_store_same by assumption. reflexivity.
  - rewrite expand_loop_more in H.
    set (k := strip_bracket raw) in *.
    destruct (get_prop cur k) as [slot|] eqn:G; [|discriminate].
    destruct (if is_undefined slot then set_prop cur k (fresh_for next)
              else Some cur) as [cur1|] eqn:C; [|discriminate].
    destruct (get_prop cur1 k) as [child|] eqn:G1; [|discriminate].
    destruct (expand_loop val (next :: rest') child) as [o child'] eqn:L.
    inversion H; subst o cur'. clear H.
    destruct (is_object cur1) eqn:O1.
    + assert (Hk : has_key k (own_entries cur1) = true).
      { destruct (is_undefined slot) eqn:U.
        - apply set_prop_some in C as [Hc ->].
          rewrite entries_store by assumption.
          unfold has_key. rewrite prop_lookup_set_same. reflexivity.
        - inversion C; subst cur1.
          rewrite get_prop_object in G by assumption.
          inversion G; subst slot. apply defined_has_key, U. }
      change (map strip_bracket (raw :: next :: rest'))
        with (k :: map strip_bracket (next :: rest')).
      cbn [get_path].
      rewrite get_prop_object by (rewrite is_object_with_child; exact O1).
      rewrite get_with_child by assumption.
      apply (IH ltac:(discriminate) child child' L).
    + exfalso.
      pose proof (get_prop_not_object _ _ _ O1 G1) as Oc.
      rewrite expand_loop_not_object in L by (auto; discriminate).
      discriminate L.
Qed.

(** X4: when [expandKey] returns from a walk over own data properties
    (no piece names a member the value it is used on inherits or has
    built in), reading the object along the pieces of the key (each
    without its closing bracket) gives the value that was passed: the
    value itself, and [undefined] after a delete. *)
Theorem expandKey_read_back (val : value) (key : jsstring) (cur : value) :
  plain_walk (split_on lbracket key) cur = true ->
  fst (expandKey val key cur) = Returned ->
  get_path (map strip_bracket (split_on lbracket key))
           (snd (expandKey val key cur))
  = Some val.
Proof.
  unfold expandKey. intros _ H.
  destruct (split_on_cons lbracket key) as (p & ps & E). rewrite E in *.
  destruct (expand_loop val (p :: ps) cur) as [o cur'] eqn:L.
  simpl in H. subst o. cbn [snd].
  apply (expand_loop_read_back val (p :: ps) ltac:(discriminate) cur cur' L).
Qed.

Lemma expandKey_read_back_witness :
  get_path [str "a"; str "b"; str "0"]
    (snd (expandKey (VNum 1) (str "a[b][0]") (VObj [(str "x", VNull)])))
  = Some (VNum 1).
Proof.
  exact (expandKey_read_back (VNum 1) (str "a[b][0]")
           (VObj [(str "x", VNull)]) eq_refl eq_refl).
Defined.

Lemma expand_loop_empty (val : value) (pieces : list jsstring) :
  pieces <> [] ->
  forall cur, is_object cur = true -> own_entries cur = [] ->
              fst (expand_loop val pieces cur) = Returned.
Proof.
  induction pieces as [|raw rest IH]; [contradiction|]. intros _ cur Hc He.
  destruct rest as [|next rest'].
  - rewrite expand_loop_last, set_prop_object by assumption. reflexivity.
  - rewrite expand_loop_more, get_prop_object by assumption.
    rewrite He. cbn [prop_get prop_lookup is_undefined].
    rewrite set_prop_object, get_store_same by assumption.
    specialize (IH ltac:(discriminate) (fresh_for next)).
    destruct (expand_loop val (next :: rest') (fresh_for next)) as [o c].
    cbn [fst] in *. apply IH; unfold fresh_for;
      destruct (isNaN_parseInt next); reflexivity.
Qed.

(** X5: on a plain object or an array without a property, [expandKey]
    never throws, whatever the value and whatever the key whose pieces
    name no member the containers it makes inherit or have built in,
    and the value is then read back along the pieces of the key. *)
Theorem expandKey_on_empty (val : value) (key : jsstring) (cur : value) :
  is_object cur = true -> own_entries cur = [] ->
  plain_walk (split_on lbracket key) cur = true ->
  fst (expandKey val key cur) = Returned
  /\ get_path (map strip_bracket (split_on lbracket key))
              (snd (expandKey val key cur))
     = Some val.
Proof.
  intros Hc He _.
  assert (R : fst (expandKey val key cur) = Returned).
  { unfold expandKey.
    destruct (split_on_cons lbracket key) as (p & ps & E). rewrite E.
    apply expand_loop_empty; [discriminate | assumption | assumption]. }
  split; [exact R|].
  unfold expandKey in *.
  destruct (split_on_cons lbracket key) as (p & ps & E). rewrite E in *.
  destruct (expand_loop val (p :: ps) cur) as [o cur'] eqn:L.
  simpl in R. subst o. cbn [snd].
  apply (expand_loop_read_back val (p :: ps) ltac:(discriminate) cur cur' L).
Qed.

Lemma expandKey_on_empty_witness :
  fst (expandKey (VStr (str "v")) (str "a[0][b]") (VArr 0 [])) = Returned
  /\ get_path [str "a"; str "0"; str "b"]
       (snd (expandKey (VStr (str "v")) (str "a[0][b]") (VArr 0 [])))
     = Some (VStr (str "v")).
Proof.
  exact (expandKey_on_empty (VStr (str "v")) (str "a[0][b]") (VArr 0 [])
           eq_refl eq_refl eq_refl).
Defined.




(** ** keyToPosition *)

Lemma split_on_sep (sep : ascii) (k rest : jsstring) :
  forallb (fun c => negb (Ascii.eqb c sep)) k = true ->
  split_on sep (k ++ sep :: rest) = k :: split_on sep rest.
Proof.
  induction k as [|c k IH]; simpl.
  - rewrite Ascii.eqb_refl. reflexivity.
  - intros H. apply andb_true_iff in H as [Hc Hk].
    apply negb_true_iff in Hc. rewrite Hc, IH by assumption. reflexivity.
Qed.

Lemma split_on_pieces_keep (p : ascii -> bool) (sep : ascii) (s : jsstring) :
  forallb p s = true -> Forall (fun piece => forallb p piece = true)
                               (split_on sep s).
Proof.
  induction s as [|c t IH]; simpl; intros H.
  - repeat constructor.
  - apply andb_true_iff in H as [Hc Ht]. specialize (IH Ht).
    destruct (Ascii.eqb c sep).
    + constructor; [reflexivity | exact IH].
    + destruct (split_on sep t) as [|h r]; [repeat constructor; simpl; rewrite Hc; reflexivity|].
      inversion IH; subst. constructor; [simpl; rewrite Hc; assumption | assumption].
Qed.

Lemma join_dots_cons (seg : jsstring) (rest : list jsstring) :
  rest <> [] -> join_dots (seg :: rest) = seg ++ dot :: join_dots rest.
Proof. destruct rest; [contradiction | reflexivity]. Qed.

(** Joining the pieces of [split('.')] with dots gives the string back. *)
Lemma join_split_dots (s : jsstring) : join_dots (split_on dot s) = s.
Proof.
  induction s as [|c t IH]; [reflexivity|]. simpl.
  destruct (split_on_cons dot t) as (h & r & E). rewrite E in *.
  destruct (Ascii.eqb_spec c dot) as [->|N].
  - rewrite join_dots_cons by discriminate. rewrite IH. reflexivity.
  - rewrite !join_dots_tail in *. simpl. rewrite IH. reflexivity.
Qed.

Lemma fold_position_later (wrapAll : bool) (pieces : list jsstring) :
  forall i position,
    i <> 0%nat ->
    snd (fold_left (position_step wrapAll) pieces (i, position))
    = position ++ concat (map wrap_piece pieces).
Proof.
  induction pieces as [|piece pieces IH]; intros i position Hi; simpl.
  - symmetry. apply app_nil_r.
  - destruct i as [|i]; [contradiction|]. cbn [Nat.eqb andb].
    rewrite IH by discriminate. unfold wrap_piece.
    rewrite <- app_assoc. reflexivity.
Qed.

Lemma keyToPosition_first_bare (key : jsstring) :
  keyToPosition key false
  = match split_on dot key with
    | first :: rest => first ++ concat (map wrap_piece rest)
    | [] => []
    end.
Proof.
  unfold keyToPosition. destruct (split_on dot key) as [|first rest];
    [reflexivity|].
  simpl. apply fold_position_later. discriminate.
Qed.

Lemma keyToPosition_all_wrapped (key : jsstring) :
  keyToPosition key true = concat (map wrap_piece (split_on dot key)).
Proof.
  unfold keyToPosition. destruct (split_on dot key) as [|first rest];
    [reflexivity|].
  simpl. rewrite fold_position_later by discriminate. reflexivity.
Qed.

Lemma no_lbracket_app (a b : jsstring) :
  no_lbracket (a ++ b) = no_lbracket a && no_lbracket b.
Proof. unfold no_lbracket. apply forallb_app. Qed.

Lemma split_on_wrapped (first : jsstring) (rest : list jsstring) :
  no_lbracket first = true ->
  Forall (fun piece => no_lbracket piece = true) rest ->
  split_on lbracket (first ++ concat (map wrap_piece rest))
  = first :: map (fun piece => piece ++ [rbracket]) rest.
Proof.
  intros Hf Hr. revert first Hf.
  induction Hr as [|piece rest Hp _ IH]; intros first Hf; simpl.
  - rewrite app_nil_r. apply split_on_piece, Hf.
  - unfold wrap_piece at 1. cbn [app]. rewrite <- app_assoc.
    rewrite split_on_bracket by assumption. f_equal.
    rewrite app_assoc. apply IH.
    rewrite no_lbracket_app, Hp. reflexivity.
Qed.

Lemma map_strip_closed (rest : list jsstring) :
  map strip_bracket (map (fun piece => piece ++ [rbracket]) rest) = rest.
Proof.
  induction rest as [|p rest IH]; simpl; [reflexivity|].
  rewrite strip_bracket_closed, IH. reflexivity.
Qed.

Lemma position_pieces (key : jsstring) :
  no_lbracket key = true ->
  (forall p, hd [] (split_on dot key) <> p ++ [rbracket]) ->
  map strip_bracket (split_on lbracket (keyToPosition key false))
  = split_on dot key.
Proof.
  intros Hk Hfirst. rewrite keyToPosition_first_bare.
  pose proof (split_on_pieces_keep _ dot key Hk) as Hall.
  destruct (split_on_cons dot key) as (first & rest & E). rewrite E in *.
  inversion Hall; subst.
  rewrite split_on_wrapped by assumption.
  cbn [map]. rewrite map_strip_closed.
  rewrite strip_bracket_open by exact Hfirst. reflexivity.
Qed.

(** X7: for a dotted key without an opening bracket whose first segment
    does not end in a closing bracket, the pieces [expandKey] walks for
    [keyToPosition(key)] are the dot segments of [key], and joining them
    with dots gives [key] back; with [wrapAll] an empty piece comes
    first. *)
Theorem keyToPosition_round_trip (key : jsstring) :
  no_lbracket key = true ->
  (forall p, hd [] (split_on dot key) <> p ++ [rbracket]) ->
  map strip_bracket (split_on lbracket (keyToPosition key false))
  = split_on dot key
  /\ join_dots (map strip_bracket
                  (split_on lbracket (keyToPosition key false))) = key
  /\ map strip_bracket (split_on lbracket (keyToPosition key true))
     = [] :: split_on dot key.
Proof.
  intros Hk Hfirst. split; [|split].
  - apply position_pieces; assumption.
  - rewrite position_pieces by assumption. apply join_split_dots.
  - rewrite keyToPosition_all_wrapped.
    pose proof (split_on_pieces_keep _ dot key Hk) as Hall.
    pose proof (split_on_wrapped [] (split_on dot key) eq_refl Hall) as W.
    cbn [app] in W. rewrite W.
    cbn [map]. rewrite map_strip_closed. reflexivity.
Qed.

Lemma keyToPosition_round_trip_witness :
  keyToPosition (str "a.0.b") false = str "a[0][b]"
  /\ map strip_bracket (split_on lbracket (keyToPosition (str "a.0.b") false))
     = [str "a"; str "0"; str "b"].
Proof.
  split; [reflexivity|].
  refine (proj1 (keyToPosition_round_trip (str "a.0.b") eq_refl _)).
  intros p H. apply (f_equal (@rev ascii)) in H.
  rewrite rev_app_distr in H. discriminate H.
Defined.

(** X8: [expandKey] with the position of a dotted key, on a plain
    object or an array without a property, stores the value where
    reading along the dot segments of the key finds it, when no segment
    names a member the containers made on the way inherit or have built
    in. *)
Theorem expandKey_keyToPosition (val : value) (key : jsstring) (cur : value) :
  no_lbracket key = true ->
  (forall p, hd [] (split_on dot key) <> p ++ [rbracket]) ->
  is_object cur = true -> own_entries cur = [] ->
  plain_walk (split_on lbracket (keyToPosition key false)) cur = true ->
  get_path (split_on dot key)
           (snd (expandKey val (keyToPosition key false) cur))
  = Some val.
Proof.
  intros Hk Hfirst Hc He _.
  rewrite <- (position_pieces key Hk Hfirst).
  unfold expandKey.
  destruct (split_on_cons lbracket (keyToPosition key false))
    as (p & ps & E). rewrite E.
  pose proof (expand_loop_empty val (p :: ps) ltac:(discriminate) cur Hc He)
    as R.
  destruct (expand_loop val (p :: ps) cur) as [o cur'] eqn:L.
  simpl in R. subst o. cbn [snd].
  apply (expand_loop_read_back val (p :: ps) ltac:(discriminate) cur cur' L).
Qed.

Lemma expandKey_keyToPosition_witness :
  get_path [str "a"; str "0"; str "b"]
    (snd (expandKey (VNum 1) (keyToPosition (str "a.0.b") false) (VObj [])))
  = Some (VNum 1).
Proof.
  refine (expandKey_keyToPosition (VNum 1) (str "a.0.b") (VObj [])
            eq_refl _ eq_refl eq_refl eq_refl).
  intros p H. apply (f_equal (@rev ascii)) in H.
  rewrite rev_app_distr in H. discriminate H.
Defined.

(** ** extractOp *)

Lemma indexOf_absent (s : jsstring) :
  no_lbracket s = true -> indexOf lbracket s = (-1)%Z.
Proof.
  unfold no_lbracket. induction s as [|c t IH]; simpl; [reflexivity|].
  intros H. apply andb_true_iff in H as [Hc Ht].
  apply negb_true_iff in Hc. rewrite Hc, IH by assumption. reflexivity.
Qed.

Lemma indexOf_first (op rest : jsstring) :
  no_lbracket op = true ->
  indexOf lbracket (op ++ lbracket :: rest) = Z.of_nat (length op).
Proof.
  unfold no_lbracket. induction op as [|c t IH]; simpl.
  - reflexivity.
  - intros H. apply andb_true_iff in H as [Hc Ht].
    apply negb_true_iff in Hc. rewrite Hc, IH by assumption.
    destruct (Z.ltb_spec (Z.of_nat (length t)) 0); lia.
Qed.

Lemma js_slice_prefix (s : jsstring) (n : nat) :
  js_slice s 0 (Z.of_nat n) = firstn n s.
Proof.
  unfold js_slice, rel_index, strlen.
  change (0 <? 0)%Z with false.
  replace (Z.of_nat n <? 0)%Z with false by (symmetry; apply Z.ltb_ge; lia).
  cbv iota.
  set (lo := Z.min 0 (Z.of_nat (length s))).
  assert (Hlo : lo = 0%Z) by lia. rewrite Hlo. simpl skipn.
  replace (Z.to_nat (Z.min (Z.of_nat n) (Z.of_nat (length s)) - 0))
    with (Nat.min n (length s)) by lia.
  destruct (Nat.le_gt_cases n (length s)) as [H|H].
  - rewrite Nat.min_l by lia. reflexivity.
  - rewrite Nat.min_r by lia. rewrite !firstn_all2 by lia. reflexivity.
Qed.

Lemma first_unit_dollar (s : jsstring) :
  streqb (js_substring s 0 1) [dollar] = starts_with_dollar s.
Proof.
  change 1%Z with (Z.of_nat 1). rewrite js_substring_prefix.
  destruct s as [|c t]; [reflexivity|]. simpl.
  rewrite andb_true_r. reflexivity.
Qed.

Lemma extractOp_before_bracket (op rest : jsstring) :
  no_lbracket op = true ->
  extractOp (op ++ lbracket :: rest)
  = if starts_with_dollar op then VStr op else VNull.
Proof.
  intros H. unfold extractOp. rewrite indexOf_first by assumption.
  rewrite js_slice_prefix, firstn_app_exact, first_unit_dollar. reflexivity.
Qed.

(** X9: [extractOp] returns what stands before the first opening bracket
    when that begins with a dollar sign, and [null] otherwise.  When
    the string holds no opening bracket, [indexOf] is [-1] and the test
    and the result are the string without its last code unit. *)
Theorem extractOp_spec :
  (forall op rest,
      no_lbracket op = true ->
      extractOp (op ++ lbracket :: rest)
      = if starts_with_dollar op then VStr op else VNull)
  /\ (forall position,
         no_lbracket position = true ->
         extractOp position
         = if starts_with_dollar (removelast position)
           then VStr (removelast position) else VNull).
Proof.
  split; [exact extractOp_before_bracket|].
  intros position H. unfold extractOp. rewrite indexOf_absent by assumption.
  change (-1)%Z with (- Z.of_nat 1)%Z.
  rewrite js_slice_drop_last by lia. rewrite first_unit_dollar.
  rewrite removelast_firstn_len.
  replace (Nat.pred (length position)) with (length position - 1)%nat by lia.
  reflexivity.
Qed.

(** X10: for a dotted key of two or more segments whose first segment
    holds no bracket, [extractOp] of its position is the first segment
    when that is an operator (it begins with a dollar sign), and [null]
    otherwise. *)
Theorem extractOp_keyToPosition (op rest : jsstring) :
  no_dot op = true -> no_lbracket op = true ->
  extractOp (keyToPosition (op ++ dot :: rest) false)
  = if starts_with_dollar op then VStr op else VNull.
Proof.
  intros Hd Hb. rewrite keyToPosition_first_bare.
  rewrite split_on_sep by exact Hd.
  destruct (split_on_cons dot rest) as (p & ps & E). rewrite E.
  cbn [map concat]. unfold wrap_piece at 1. cbn [app].
  apply extractOp_before_bracket, Hb.
Qed.

Lemma extractOp_keyToPosition_witness :
  extractOp (keyToPosition (str "$set.a.b") false) = VStr (str "$set").
Proof.
  exact (extractOp_keyToPosition (str "$set") (str "a.b") eq_refl eq_refl).
Defined.

(** ** appendAffectedKey *)

Lemma streqb_length (a b : jsstring) :
  length a <> length b -> streqb a b = false.
Proof. intros H. apply streqb_neq. intros ->. contradiction. Qed.

Lemma child_affects_parent (s key : jsstring) :
  s <> [] ->
  genericKeyAffectsOtherGenericKey (s ++ dot :: key) s
  = streqb key [dollar].
Proof.
  intros Hs. unfold genericKeyAffectsOtherGenericKey.
  rewrite (streqb_length s) by (rewrite length_app; simpl; lia).
  assert (Hsub : js_substring s 0 (strlen (s ++ dot :: key) + 1) = s).
  { unfold strlen.
    replace (Z.of_nat (length (s ++ dot :: key)) + 1)%Z
      with (Z.of_nat (length (s ++ dot :: key) + 1)) by lia.
    rewrite js_substring_prefix. apply firstn_all2.
    rewrite length_app. lia. }
  rewrite Hsub.
  rewrite (streqb_length s) by (rewrite !length_app; simpl; lia).
  change (-2)%Z with (- Z.of_nat 2)%Z.
  rewrite js_slice_last, js_slice_drop_last by lia.
  rewrite length_app. cbn [length].
  destruct key as [|c [|c' key']]; cbn [length].
  - (* the key is empty: the last two code units end [s] *)
    rewrite (streqb_length (firstn _ _)), andb_false_r; [reflexivity|].
    rewrite length_firstn, length_app. simpl.
    destruct s; [contradiction|]. simpl. lia.
  - replace (length s + 2 - 2)%nat with (length s) by lia.
    rewrite skipn_app, Nat.sub_diag, skipn_all, firstn_app_exact.
    rewrite streqb_refl, andb_true_r. simpl.
    destruct (Ascii.eqb c dollar); reflexivity.
  - rewrite (streqb_length (firstn _ _)), andb_false_r.
    + simpl. rewrite andb_false_r. reflexivity.
    + rewrite length_firstn, length_app. simpl. lia.
Qed.

Lemma parent_affects_child (s key : jsstring) :
  genericKeyAffectsOtherGenericKey s (s ++ dot :: key) = true.
Proof.
  unfold genericKeyAffectsOtherGenericKey.
  destruct (streqb (s ++ dot :: key) s); [reflexivity|].
  assert (Hsub : js_substring (s ++ dot :: key) 0 (strlen s + 1)
                 = s ++ [dot]).
  { unfold strlen.
    replace (Z.of_nat (length s) + 1)%Z with (Z.of_nat (length (s ++ [dot])))
      by (rewrite length_app; simpl; lia).
    rewrite js_substring_prefix.
    change (s ++ dot :: key) with (s ++ [dot] ++ key).
    rewrite app_assoc. apply firstn_app_exact. }
  rewrite Hsub, streqb_refl. reflexivity.
Qed.

(** X11: for a base key that is not empty and a segment other than
    [$each], [appendAffectedKey] returns the base, a dot and the
    segment; the base key affects the key so built, and the built key
    affects the base only when the segment is [$]. *)
Theorem appendAffectedKey_affects (s key : jsstring) :
  s <> [] -> key <> str "$each" ->
  appendAffectedKey (VStr s) key = VStr (s ++ dot :: key)
  /\ genericKeyAffectsOtherGenericKey s (s ++ dot :: key) = true
  /\ genericKeyAffectsOtherGenericKey (s ++ dot :: key) s
     = streqb key [dollar].
Proof.
  intros Hs Hk. split; [|split].
  - unfold appendAffectedKey. apply streqb_neq in Hk. rewrite Hk.
    destruct s; [contradiction | reflexivity].
  - apply parent_affects_child.
  - apply child_affects_parent, Hs.
Qed.

Lemma appendAffectedKey_affects_witness :
  appendAffectedKey (VStr (str "a")) (str "$") = VStr (str "a.$")
  /\ genericKeyAffectsOtherGenericKey (str "a") (str "a.$") = true
  /\ genericKeyAffectsOtherGenericKey (str "a.$") (str "a") = true.
Proof.
  exact (appendAffectedKey_affects (str "a") (str "$")
           ltac:(discriminate) ltac:(discriminate)).
Defined.

(** ** makeKeyGeneric: what is left, and appended segments *)

Lemma suffixes_cons (c : ascii) (t suf : jsstring) :
  In suf (suffixes (c :: t)) <-> suf = c :: t \/ In suf (suffixes t).
Proof. simpl. intuition congruence. Qed.

Lemma no_match_in_output (n : nat) :
  forall s, (length s <= n)%nat ->
  forall suf, In suf (suffixes (replace_generic s)) -> match_at suf = None.
Proof.
  induction n as [n IH] using lt_wf_ind. intros [|c t] Hlen suf Hin.
  - simpl in Hin. destruct Hin as [<-|[]]. reflexivity.
  - rewrite replace_generic_cons in Hin.
    destruct (match_at (c :: t)) as [r|] eqn:M.
    + pose proof (match_at_length _ _ M) as Hr. simpl in Hr, Hlen.
      apply suffixes_cons in Hin as [->|Hin].
      { apply no_match_after_replacement, (match_at_lookahead _ _ M). }
      apply suffixes_cons in Hin as [->|Hin].
      { apply match_at_not_dot. discriminate. }
      apply (IH (length r) ltac:(lia) r (Nat.le_refl _) suf Hin).
    + simpl in Hlen.
      apply suffixes_cons in Hin as [->|Hin].
      { apply no_match_after_copy, M. }
      apply (IH (length t) ltac:(lia) t (Nat.le_refl _) suf Hin).
Qed.

(** X12: the string [makeKeyGeneric] returns holds no run any more: at
    no position does a dot come before digits or a [$[...]] token that
    a dot or the end follows. *)
Theorem makeKeyGeneric_leaves_no_run (s suf r : jsstring) :
  In suf (suffixes (replace_generic s)) -> ~ run_at suf r.
Proof.
  intros Hin Hrun. apply match_at_run in Hrun.
  rewrite (no_match_in_output (length s) s (Nat.le_refl _) suf Hin) in Hrun.
  discriminate Hrun.
Qed.

Lemma makeKeyGeneric_leaves_no_run_witness :
  makeKeyGeneric (VStr (str "a.0.b")) = VStr (str "a.$.b")
  /\ ~ run_at (str ".$.b") (str ".b").
Proof.
  split; [reflexivity|].
  apply (makeKeyGeneric_leaves_no_run (str "a.0.b")).
  simpl. auto.
Defined.

Lemma tail_dots_app (a b : list jsstring) :
  tail_dots (a ++ b) = tail_dots a ++ tail_dots b.
Proof. unfold tail_dots. apply flat_map_app. Qed.

Lemma replace_generic_nonempty (s : jsstring) :
  s <> [] -> (0 <? length (replace_generic s))%nat = true.
Proof.
  intros Hs. pose proof (replace_generic_head s) as H.
  destruct s as [|c t]; [contradiction|].
  destruct (replace_generic (c :: t)); [discriminate H | reflexivity].
Qed.

Lemma generic_segment_not_each (key : jsstring) :
  key <> str "$each" -> generic_segment key <> str "$each".
Proof.
  unfold generic_segment. intros Hk.
  destruct (is_index_segment key || is_positional_segment key);
    [discriminate | exact Hk].
Qed.

(** X13: [makeKeyGeneric] goes through [appendAffectedKey]: for a
    well-formed base path that is not empty and a well-formed segment
    other than [$each], the generic form of the appended key is the
    generic form of the base with the segment appended, the segment
    being replaced by [$] when it is an array index or a positional
    operator. *)
Theorem makeKeyGeneric_appendAffectedKey (s key : jsstring) :
  s <> [] -> key <> str "$each" ->
  forallb well_formed_segment (split_on dot s) = true ->
  well_formed_segment key = true ->
  makeKeyGeneric (appendAffectedKey (VStr s) key)
  = appendAffectedKey (makeKeyGeneric (VStr s)) (generic_segment key).
Proof.
  intros Hs Hk Hwf Hkey.
  pose proof (generic_segment_not_each key Hk) as Hg.
  apply streqb_neq in Hk. apply streqb_neq in Hg.
  unfold appendAffectedKey, makeKeyGeneric. rewrite Hk, Hg.
  rewrite (replace_generic_nonempty s Hs).
  destruct s as [|c t] eqn:Es; [contradiction|]. rewrite <- Es in *.
  replace (0 <? length s)%nat with true by (subst s; reflexivity).
  f_equal.
  rewrite <- (join_split_dots s) at 1 2.
  destruct (split_on_cons dot s) as (first & rest & E). rewrite E in *.
  simpl in Hwf. apply andb_true_iff in Hwf as [Hf Hr].
  assert (T : forall seg, dot :: seg = tail_dots [seg])
    by (intros seg; simpl; rewrite app_nil_r; reflexivity).
  rewrite (T key), (T (generic_segment key)).
  rewrite !join_dots_tail, <- app_assoc, <- tail_dots_app.
  rewrite !(replace_generic_over not_dot) by (auto using well_formed_no_dot).
  rewrite !replace_tail_dots;
    [| assumption | rewrite forallb_app, Hr; simpl; rewrite Hkey; reflexivity].
  rewrite map_app, tail_dots_app, app_assoc. reflexivity.
Qed.

Lemma makeKeyGeneric_appendAffectedKey_witness :
  makeKeyGeneric (appendAffectedKey (VStr (str "a.3.b")) (str "12"))
  = VStr (str "a.$.b.$").
Proof.
  exact (makeKeyGeneric_appendAffectedKey (str "a.3.b") (str "12")
           ltac:(discriminate) ltac:(discriminate) eq_refl eq_refl).
Defined.

(** ** The sanitizer is idempotent *)

Lemma keys_prop_replace (k : jsstring) (v : value) (ps : props_t) :
  map fst (prop_replace k v ps) = map fst ps.
Proof.
  induction ps as [|[k0 v0] ps IH]; simpl; [reflexivity|].
  destruct (streqb k0 k); simpl; [reflexivity|]. rewrite IH. reflexivity.
Qed.

Lemma in_keys_insert (n : N) (k : jsstring) (v : value) (ps : props_t)
    (x : jsstring) :
  In x (map fst (insert_index n k v ps)) <-> x = k \/ In x (map fst ps).
Proof.
  induction ps as [|[k0 v0] ps IH]; simpl.
  - intuition congruence.
  - destruct (array_index k0) as [n0|].
    + destruct (n <? n0)%N; simpl.
      * intuition congruence.
      * rewrite IH. intuition congruence.
    + simpl. intuition congruence.
Qed.

Lemma nodup_insert (n : N) (k : jsstring) (v : value) (ps : props_t) :
  ~ In k (map fst ps) -> NoDup (map fst ps) ->
  NoDup (map fst (insert_index n k v ps)).
Proof.
  induction ps as [|[k0 v0] ps IH]; simpl; intros Hk Hnd.
  - repeat constructor. auto.
  - inversion Hnd as [|? ? H0 Hnd']; subst.
    assert (Hall : NoDup (k :: k0 :: map fst ps)).
    { constructor; [simpl; tauto | assumption]. }
    destruct (array_index k0) as [n0|]; [|exact Hall].
    destruct (n <? n0)%N; [exact Hall|]. simpl.
    constructor.
    + rewrite in_keys_insert. intros [->|H]; tauto.
    + apply IH; tauto.
Qed.

Lemma nodup_prop_set (k : jsstring) (v : value) (ps : props_t) :
  NoDup (map fst ps) -> NoDup (map fst (prop_set k v ps)).
Proof.
  intros Hnd. unfold prop_set. destruct (has_key k ps) eqn:H.
  - rewrite keys_prop_replace. exact Hnd.
  - assert (Hk : ~ In k (map fst ps)).
    { intros Hin. apply has_key_in in Hin. congruence. }
    destruct (array_index k).
    + apply nodup_insert; assumption.
    + rewrite map_app. simpl. apply NoDup_app; auto.
      * repeat constructor. auto.
      * intros x Hx [<-|[]]. contradiction.
Qed.

Lemma key_le_index_trans (k k' x : jsstring) (n n' : N) :
  array_index k = Some n -> array_index k' = Some n' -> (n <= n')%N ->
  key_le k' x -> key_le k x.
Proof.
  unfold key_le. intros -> ->. destruct (array_index x); [lia | auto].
Qed.

Lemma key_le_after_name (k k' x : jsstring) (n : N) :
  array_index k = Some n -> array_index k' = None ->
  key_le k' x -> key_le k x.
Proof.
  unfold key_le. intros -> ->. destruct (array_index x); [contradiction | auto].
Qed.

Lemma key_le_name (x k : jsstring) : array_index k = None -> key_le x k.
Proof. unfold key_le. intros ->. destruct (array_index x); exact I. Qed.

Lemma ordered_insert (n : N) (k : jsstring) (v : value) (ps : props_t) :
  array_index k = Some n -> ordered_keys (map fst ps) ->
  ordered_keys (map fst (insert_index n k v ps)).
Proof.
  intros Hk. induction ps as [|[k0 v0] ps IH]; simpl; intros Ho.
  - split; [constructor | exact I].
  - destruct Ho as [H0 Ho].
    destruct (array_index k0) as [n0|] eqn:E0.
    + destruct (N.ltb_spec n n0) as [Hlt|Hge]; simpl.
      * split; [|split; assumption].
        constructor.
        -- unfold key_le. rewrite Hk, E0. lia.
        -- eapply Forall_impl; [|exact H0]. intros x Hx.
           eapply (key_le_index_trans k k0); eauto. lia.
      * split; [|apply IH, Ho].
        apply Forall_forall. intros x Hx. apply in_keys_insert in Hx.
        destruct Hx as [->|Hx].
        -- unfold key_le. rewrite E0, Hk. exact Hge.
        -- rewrite Forall_forall in H0. apply H0, Hx.
    + simpl. split; [|split; assumption].
      constructor.
      * unfold key_le. rewrite Hk, E0. exact I.
      * eapply Forall_impl; [|exact H0]. intros x Hx.
        eapply (key_le_after_name k k0); eauto.
Qed.

Lemma ordered_snoc_name (ks : list jsstring) (k : jsstring) :
  array_index k = None -> ordered_keys ks -> ordered_keys (ks ++ [k]).
Proof.
  intros Hk. induction ks as [|k0 ks IH]; simpl; intros Ho.
  - split; [constructor | exact I].
  - destruct Ho as [H0 Ho]. split; [|apply IH, Ho].
    apply Forall_app. split; [exact H0|].
    constructor; [apply key_le_name, Hk | constructor].
Qed.

Lemma ordered_prop_set (k : jsstring) (v : value) (ps : props_t) :
  ordered_keys (map fst ps) -> ordered_keys (map fst (prop_set k v ps)).
Proof.
  intros Ho. unfold prop_set. destruct (has_key k ps).
  - rewrite keys_prop_replace. exact Ho.
  - destruct (array_index k) as [n|] eqn:E.
    + apply ordered_insert; assumption.
    + rewrite map_app. simpl. apply ordered_snoc_name; assumption.
Qed.

Lemma len_keys_max (len : N) (ks : list jsstring) :
  len_keys len ks = N.max len (len_keys 0 ks).
Proof.
  revert len. induction ks as [|k ks IH]; intros len; simpl; [lia|].
  destruct (array_index k) as [n|].
  - rewrite (IH (N.max len (n + 1))), (IH (N.max 0 (n + 1))). lia.
  - apply IH.
Qed.

Lemma len_keys_cons (k : jsstring) (ks : list jsstring) :
  len_keys 0 (k :: ks)
  = match array_index k with
    | Some n => N.max (n + 1) (len_keys 0 ks)
    | None => len_keys 0 ks
    end.
Proof.
  simpl. destruct (array_index k) as [n|]; [|reflexivity].
  rewrite len_keys_max. lia.
Qed.

Lemma len_keys_app (a b : list jsstring) :
  len_keys 0 (a ++ b) = N.max (len_keys 0 a) (len_keys 0 b).
Proof.
  induction a as [|k a IH]; [simpl; lia|].
  rewrite <- app_comm_cons, !len_keys_cons, IH.
  destruct (array_index k); lia.
Qed.

Lemma len_keys_present (k : jsstring) (n : N) (ks : list jsstring) :
  In k ks -> array_index k = Some n -> (n + 1 <= len_keys 0 ks)%N.
Proof.
  induction ks as [|k0 ks IH]; [contradiction|].
  intros [->|Hin] Hk; rewrite len_keys_cons.
  - rewrite Hk. lia.
  - specialize (IH Hin Hk). destruct (array_index k0); lia.
Qed.

Lemma len_keys_insert (n : N) (k : jsstring) (v : value) (ps : props_t) :
  array_index k = Some n ->
  len_keys 0 (map fst (insert_index n k v ps))
  = N.max (len_keys 0 (map fst ps)) (n + 1).
Proof.
  intros Hk. induction ps as [|[k0 v0] ps IH].
  - simpl. rewrite Hk. lia.
  - cbn [insert_index].
    assert (Hhead : len_keys 0 (map fst ((k, v) :: (k0, v0) :: ps))
                    = N.max (len_keys 0 (map fst ((k0, v0) :: ps))) (n + 1)).
    { cbn [map fst]. rewrite (len_keys_cons k), Hk. lia. }
    destruct (array_index k0) as [n0|] eqn:E0; [|exact Hhead].
    destruct (n <? n0)%N; [exact Hhead|].
    cbn [map fst]. rewrite !len_keys_cons, E0, IH. lia.
Qed.

Lemma len_keys_prop_set (k : jsstring) (v : value) (ps : props_t) :
  len_keys 0 (map fst (prop_set k v ps))
  = match array_index k with
    | Some n => N.max (len_keys 0 (map fst ps)) (n + 1)
    | None => len_keys 0 (map fst ps)
    end.
Proof.
  unfold prop_set. destruct (has_key k ps) eqn:H.
  - rewrite keys_prop_replace. destruct (array_index k) as [n|] eqn:E;
      [|reflexivity].
    apply has_key_in in H. pose proof (len_keys_present k n _ H E). lia.
  - destruct (array_index k) as [n|] eqn:E.
    + apply len_keys_insert, E.
    + rewrite map_app, len_keys_app. simpl. rewrite E. lia.
Qed.

Lemma store_built (k : jsstring) (v d : value) :
  built d -> built (store k v d).
Proof.
  intros (Hnd & Ho & Hlen).
  destruct d as [| |b|n|s|len ps|ps|tag size ps]; cbn [store];
    try (repeat split; assumption);
    unfold built; cbn [own_entries] in *;
    (split; [apply nodup_prop_set, Hnd|]);
    (split; [apply ordered_prop_set, Ho|]); try exact I.
  rewrite len_keys_prop_set, Hlen. reflexivity.
Qed.

Lemma insert_index_last (n : N) (k : jsstring) (v : value) (ps : props_t) :
  array_index k = Some n ->
  Forall (fun k' => key_le k' k) (map fst ps) ->
  insert_index n k v ps = ps ++ [(k, v)].
Proof.
  intros Hk. induction ps as [|[k0 v0] ps IH]; simpl; intros H;
    [reflexivity|].
  inversion H as [|? ? H0 Hrest]; subst.
  unfold key_le in H0. rewrite Hk in H0.
  destruct (array_index k0) as [n0|]; [|contradiction].
  destruct (N.ltb_spec n n0); [lia|]. rewrite IH by assumption. reflexivity.
Qed.

Lemma ordered_app_before (a b : list jsstring) :
  ordered_keys (a ++ b) ->
  forall x y, In x a -> In y b -> key_le x y.
Proof.
  induction a as [|k a IH]; simpl; intros Ho x y Hx Hy; [contradiction|].
  destruct Ho as [H0 Ho]. destruct Hx as [->|Hx].
  - rewrite Forall_forall in H0. apply H0, in_or_app. auto.
  - eapply IH; eauto.
Qed.

(** Storing the entries of a built list, in order, appends them. *)
Lemma set_all_built (ps acc : props_t) :
  NoDup (map fst (acc ++ ps)) -> ordered_keys (map fst (acc ++ ps)) ->
  fold_left (fun acc kv => prop_set (fst kv) (snd kv) acc) ps acc
  = acc ++ ps.
Proof.
  revert acc. induction ps as [|[k v] ps IH]; intros acc Hnd Ho; simpl.
  - symmetry. apply app_nil_r.
  - assert (Hset : prop_set k v acc = acc ++ [(k, v)]).
    { unfold prop_set.
      assert (Hk : has_key k acc = false).
      { destruct (has_key k acc) eqn:H; [|reflexivity].
        apply has_key_in in H. rewrite map_app in Hnd.
        apply NoDup_app_remove_l in Hnd as Hnd'.
        exfalso. rewrite <- map_app in Hnd.
        rewrite map_app in Hnd. simpl in Hnd.
        apply NoDup_remove_2 in Hnd. apply Hnd, in_or_app. auto. }
      rewrite Hk. destruct (array_index k) as [n|] eqn:E; [|reflexivity].
      apply insert_index_last; [exact E|].
      apply Forall_forall. intros x Hx.
      rewrite map_app in Ho. simpl in Ho.
      apply (ordered_app_before _ _ Ho x k Hx). simpl. auto. }
    rewrite Hset. rewrite IH.
    + rewrite <- app_assoc. reflexivity.
    + rewrite <- app_assoc. exact Hnd.
    + rewrite <- app_assoc. exact Ho.
Qed.

Lemma store_all_object (ps acc : props_t) :
  store_all ps (VObj acc)
  = VObj (fold_left (fun acc kv => prop_set (fst kv) (snd kv) acc) ps acc).
Proof.
  unfold store_all. revert acc.
  induction ps as [|[k v] ps IH]; intros acc; simpl; [reflexivity|].
  apply IH.
Qed.

Lemma store_all_array (ps acc : props_t) (len : N) :
  store_all ps (VArr len acc)
  = VArr (len_keys len (map fst ps))
         (fold_left (fun acc kv => prop_set (fst kv) (snd kv) acc) ps acc).
Proof.
  unfold store_all. revert acc len.
  induction ps as [|[k v] ps IH]; intros acc len; simpl; [reflexivity|].
  apply IH.
Qed.

(** Storing the entries of a built object again gives the object. *)
Lemma store_all_built (isArray : bool) (r : value) :
  Array_isArray r = isArray -> isBasicObject r = negb isArray ->
  built r -> store_all (own_entries r) (new_doc isArray) = r.
Proof.
  intros Ha Hb (Hnd & Ho & Hlen).
  destruct r as [| |b|n|s|len ps|ps|tag size ps];
    destruct isArray; try discriminate; cbn [own_entries new_doc] in *.
  - rewrite store_all_array, set_all_built by assumption.
    rewrite Hlen. reflexivity.
  - rewrite store_all_object, set_all_built by assumption. reflexivity.
Qed.

Lemma fold_clean_settled (keep : bool) (ps : props_t) :
  Forall (fun kv => settled keep (snd kv)) ps ->
  forall d, fold_left (clean_step keep) ps d = store_all ps d.
Proof.
  unfold store_all. induction 1 as [|[k v] ps [Hk Hs] _ IH]; intros d; simpl;
    [reflexivity|].
  simpl in Hk, Hs. rewrite clean_step_cases, Hk, Hs. apply IH.
Qed.

Lemma stored_value_settled (keep : bool) (val : value) :
  (forall a, cleanNulls (cleanNulls val a keep) a keep
             = cleanNulls val a keep) ->
  is_kept keep val = true -> settled keep (stored_value keep val).
Proof.
  intros IH Hk. unfold settled.
  destruct val as [| |b|n|s|len ps|ps|tag size ps];
    try (split; [exact Hk | reflexivity]).
  - cbn [is_kept stored_value] in *.
    destruct (cleanNulls_good (VArr len ps) true keep) as (Ha & _).
    pose proof (IH true) as E.
    destruct (cleanNulls (VArr len ps) true keep) as
      [| |b'|n'|s'|len' ps'|ps'|tag' size' ps'] eqn:C; try discriminate.
    cbn [is_kept stored_value]. rewrite E. auto.
  - cbn [is_kept stored_value] in *.
    destruct (cleanNulls_good (VObj ps) false keep) as (_ & Ho & _).
    pose proof (IH false) as E.
    destruct (cleanNulls (VObj ps) false keep) as
      [| |b'|n'|s'|len' ps'|ps'|tag' size' ps'] eqn:C; try discriminate.
    cbn [is_kept stored_value]. rewrite E. auto.
Qed.

Lemma store_settled (keep : bool) (k : jsstring) (v d : value) :
  is_object d = true ->
  Forall (fun kv => settled keep (snd kv)) (own_entries d) ->
  settled keep v ->
  Forall (fun kv => settled keep (snd kv)) (own_entries (store k v d)).
Proof.
  intros Hd Hall Hv. rewrite entries_store by assumption.
  apply (Forall_values_set (settled keep)); assumption.
Qed.

Lemma fold_clean_invariant (keep : bool) (ps : props_t) :
  Forall (fun kv => forall a,
              cleanNulls (cleanNulls (snd kv) a keep) a keep
              = cleanNulls (snd kv) a keep) ps ->
  forall d, is_object d = true -> built d ->
    Forall (fun kv => settled keep (snd kv)) (own_entries d) ->
    built (fold_left (clean_step keep) ps d)
    /\ Forall (fun kv => settled keep (snd kv))
              (own_entries (fold_left (clean_step keep) ps d)).
Proof.
  induction 1 as [|[key val] ps Hkv _ IH]; intros d Hd Hb Hs; simpl;
    [auto|].
  simpl in Hkv. apply IH.
  - rewrite is_object_clean_step. exact Hd.
  - rewrite clean_step_cases. destruct (is_kept keep val); [|exact Hb].
    apply store_built, Hb.
  - rewrite clean_step_cases. destruct (is_kept keep val) eqn:K; [|exact Hs].
    apply store_settled; auto. apply stored_value_settled; assumption.
Qed.

Lemma new_doc_built (isArray : bool) : built (new_doc isArray).
Proof. destruct isArray; repeat split; constructor. Qed.

Lemma cleanNulls_fixed_point (doc : value) :
  forall isArray keep,
    cleanNulls (cleanNulls doc isArray keep) isArray keep
    = cleanNulls doc isArray keep.
Proof.
  induction doc as [| |b|n|s|len ps IH|ps IH|tag size ps IH]
    using value_ind; intros isArray keep;
    try (destruct isArray; reflexivity).
  all: destruct (cleanNulls_good (VArr len ps) isArray keep) as (Ha & Hb & _)
       || destruct (cleanNulls_good (VObj ps) isArray keep) as (Ha & Hb & _)
       || destruct (cleanNulls_good (VExotic tag size ps) isArray keep)
            as (Ha & Hb & _).
  all: rewrite (cleanNulls_unfold (cleanNulls _ isArray keep)).
  all: rewrite cleanNulls_unfold in Ha, Hb |- *; cbn [own_entries] in *.
  all: (assert (Hps : Forall (fun kv => forall a,
                   cleanNulls (cleanNulls (snd kv) a keep) a keep
                   = cleanNulls (snd kv) a keep) ps)
         by (eapply Forall_impl; [|exact IH]; simpl; auto)).
  all: destruct (fold_clean_invariant keep ps Hps (new_doc isArray)
                   (is_object_new_doc isArray) (new_doc_built isArray))
         as [Hbuilt Hsettled];
       [rewrite entries_new_doc; constructor|].
  all: rewrite (fold_clean_settled keep _ Hsettled).
  all: apply store_all_built; assumption.
Qed.

(** ** Documents of plain keys *)

Lemma forallb_plain (ps : props_t) :
  forallb (fun kv => plain_key (fst kv) && plain_keys (snd kv)) ps = true
  <-> Forall (fun kv => plain_key (fst kv) = true
                        /\ plain_keys (snd kv) = true) ps.
Proof.
  rewrite forallb_forall, Forall_forall.
  split; intros A kv Hin; apply andb_true_iff, A, Hin.
Qed.

Lemma plain_keys_entries (v : value) :
  is_object v = true ->
  plain_keys v = true
  <-> Forall (fun kv => plain_key (fst kv) = true
                        /\ plain_keys (snd kv) = true) (own_entries v).
Proof.
  destruct v; try discriminate; intros _; apply forallb_plain.
Qed.

Lemma plain_prop_set (k : jsstring) (v : value) (ps : props_t) :
  plain_key k = true -> plain_keys v = true ->
  Forall (fun kv => plain_key (fst kv) = true
                    /\ plain_keys (snd kv) = true) ps ->
  Forall (fun kv => plain_key (fst kv) = true
                    /\ plain_keys (snd kv) = true) (prop_set k v ps).
Proof.
  intros Hk Hv Hps. unfold prop_set. destruct (has_key k ps).
  - apply Forall_prop_replace; [|split; assumption|assumption].
    intros k0 k' v0 E H. apply streqb_eq in E. subst k'. exact H.
  - destruct (array_index k).
    + apply Forall_insert_index; [split|]; assumption.
    + apply Forall_app. split; [assumption|].
      constructor; [split; assumption | constructor].
Qed.

Lemma store_plain_keys (k : jsstring) (v d : value) :
  is_object d = true -> plain_key k = true -> plain_keys v = true ->
  plain_keys d = true -> plain_keys (store k v d) = true.
Proof.
  intros Hd Hk Hv Hp.
  apply plain_keys_entries; [rewrite is_object_store; exact Hd|].
  rewrite entries_store by exact Hd. apply plain_prop_set; try assumption.
  apply plain_keys_entries; assumption.
Qed.

Lemma fold_clean_plain (keep : bool) (ps : props_t) :
  Forall (fun kv => plain_key (fst kv) = true
                    /\ plain_keys (snd kv) = true
                    /\ forall a,
                         plain_keys (cleanNulls (snd kv) a keep) = true) ps ->
  forall d, is_object d = true -> plain_keys d = true ->
    plain_keys (fold_left (clean_step keep) ps d) = true.
Proof.
  induction 1 as [|[key val] ps (Hk & Hv & Hc) _ IH]; intros d Hd Hp; simpl;
    [exact Hp|].
  simpl in Hk, Hv, Hc. apply IH.
  - rewrite is_object_clean_step. exact Hd.
  - rewrite clean_step_cases. destruct (is_kept keep val); [|exact Hp].
    apply store_plain_keys; try assumption.
    unfold stored_value. destruct val; auto.
Qed.

(** The sanitizer adds no key: a document of plain keys stays one. *)
Lemma cleanNulls_plain_keys (doc : value) :
  plain_keys doc = true ->
  forall isArray keep, plain_keys (cleanNulls doc isArray keep) = true.
Proof.
  induction doc as [| |b|n|s|len ps IH|ps IH|tag size ps IH]
    using value_ind; intros Hp isArray keep;
    try (destruct isArray; reflexivity).
  all: rewrite cleanNulls_unfold; cbn [own_entries].
  all: apply fold_clean_plain;
         [|apply is_object_new_doc | destruct isArray; reflexivity].
  all: cbn [plain_keys] in Hp; apply forallb_plain in Hp.
  all: rewrite Forall_forall in *; intros kv Hin.
  all: destruct (Hp kv Hin) as [A B]; repeat split; auto.
Qed.

(** X14: sanitizing a sanitized document changes nothing: for a
    document whose keys are, at every depth, keys an assignment stores
    as own properties (none is [__proto__] or [length]),
    [cleanNulls (cleanNulls doc)] is [cleanNulls doc], with both flags,
    and the keys of the result are such keys again. *)
Theorem cleanNulls_idempotent (doc : value) (isArray keep : bool) :
  plain_keys doc = true ->
  cleanNulls (cleanNulls doc isArray keep) isArray keep
  = cleanNulls doc isArray keep
  /\ plain_keys (cleanNulls doc isArray keep) = true.
Proof.
  intros Hp. split; [apply cleanNulls_fixed_point|].
  apply cleanNulls_plain_keys, Hp.
Qed.

Lemma cleanNulls_idempotent_witness :
  cleanNulls (cleanNulls example_doc false false) false false
  = cleanNulls example_doc false false.
Proof.
  exact (proj1 (cleanNulls_idempotent example_doc false false eq_refl)).
Defined.

Lemma cleanNulls_invariant (doc : value) (isArray keep : bool) :
  built (cleanNulls doc isArray keep)
  /\ Forall (fun kv => settled keep (snd kv))
            (own_entries (cleanNulls doc isArray keep)).
Proof.
  rewrite cleanNulls_unfold.
  apply fold_clean_invariant.
  - apply Forall_forall. intros kv _ a. apply cleanNulls_fixed_point.
  - apply is_object_new_doc.
  - apply new_doc_built.
  - rewrite entries_new_doc. constructor.
Qed.

(** X15: for a document whose keys are, at every depth, keys an
    assignment stores as own properties (none is [__proto__] or
    [length]), the result of [cleanNulls] is an object as a sequence of
    assignments builds it: its keys are distinct and stand in the order
    of [Object.keys] (array indices ascending, then names), and the
    length of a result array is one more than its largest index, or
    zero when it has none. *)
Theorem cleanNulls_built (doc : value) (isArray keep : bool) :
  plain_keys doc = true ->
  NoDup (map fst (own_entries (cleanNulls doc isArray keep)))
  /\ ordered_keys (map fst (own_entries (cleanNulls doc isArray keep)))
  /\ (isArray = true ->
      array_length (cleanNulls doc isArray keep)
      = len_keys 0 (map fst (own_entries (cleanNulls doc isArray keep)))).
Proof.
  intros _.
  destruct (cleanNulls_invariant doc isArray keep) as [(Hnd & Ho & Hlen) _].
  split; [exact Hnd|]. split; [exact Ho|]. intros ->.
  destruct (cleanNulls_good doc true keep) as (Ha & _).
  destruct (cleanNulls doc true keep); try discriminate. exact Hlen.
Qed.

Lemma cleanNulls_built_witness :
  cleanNulls (VArr 3 [(str "0", VNull); (str "1", VNum 1);
                      (str "2", VStr [])]) true false
  = VArr 2 [(str "1", VNum 1)]
  /\ array_length
       (cleanNulls (VArr 3 [(str "0", VNull); (str "1", VNum 1);
                            (str "2", VStr [])]) true false)
     = len_keys 0
         (map fst
            (own_entries
               (cleanNulls (VArr 3 [(str "0", VNull); (str "1", VNum 1);
                                    (str "2", VStr [])]) true false))).
Proof.
  split; [reflexivity|].
  exact (proj2 (proj2 (cleanNulls_built
                         (VArr 3 [(str "0", VNull); (str "1", VNum 1);
                                  (str "2", VStr [])]) true false eq_refl))
           eq_refl).
Defined.

(** ** Nothing to report after sanitizing *)

Lemma settled_not_null_like (keep : bool) (v : value) :
  settled keep v -> is_null_like keep v = false.
Proof.
  intros [Hk Hs]. unfold is_null_like, is_kept, stored_value in *.
  destruct v as [| |b|n|s|len ps|ps|tag size ps];
    cbn [Array_isArray is_empty_string andb orb];
    rewrite ?andb_false_r; cbn [orb andb]; try reflexivity.
  - unfold is_dropped_leaf in Hk. simpl in Hk.
    rewrite andb_false_r in Hk. discriminate Hk.
  - unfold is_dropped_leaf in Hk. simpl in Hk.
    rewrite andb_false_r in Hk. discriminate Hk.
  - unfold is_dropped_leaf in Hk. simpl in Hk.
    destruct keep, (Nat.eqb (length s) 0); try discriminate; reflexivity.
  - rewrite Hs in *. simpl in Hk. simpl. apply negb_true_iff, Hk.
Qed.

Lemma lookup_settled (keep : bool) (k : jsstring) (ps : props_t) :
  Forall (fun kv => settled keep (snd kv)) ps ->
  In k (map fst ps) -> settled keep (prop_get k ps).
Proof.
  unfold prop_get. induction 1 as [|[k' v'] ps Hv _ IH]; simpl;
    [contradiction|].
  intros Hin. destruct (streqb k' k) eqn:E; [exact Hv|].
  apply IH. destruct Hin as [->|Hin]; [|exact Hin].
  rewrite streqb_refl in E. discriminate E.
Qed.

Lemma fold_report_nothing (flatDoc : value) (keep : bool)
    (keys : list jsstring) :
  Forall (fun key =>
            is_null_like keep (prop_get key (own_entries flatDoc)) = false)
         keys ->
  forall acc, fold_left (report_step flatDoc keep) keys acc = acc.
Proof.
  induction 1 as [|key keys Hkey _ IH]; intros acc; simpl; [reflexivity|].
  unfold report_step at 2. rewrite Hkey. apply IH.
Qed.

(** X16: after [cleanNulls] there is nothing to report: [reportNulls]
    of a sanitized document, with the same [keepEmptyStrings], is the
    empty object. *)
Theorem reportNulls_after_cleanNulls (doc : value) (isArray keep : bool) :
  reportNulls (cleanNulls doc isArray keep) keep = VObj [].
Proof.
  destruct (cleanNulls_invariant doc isArray keep) as [_ Hs].
  apply (fold_report_nothing (cleanNulls doc isArray keep) keep).
  apply Forall_forall. intros key Hin.
  apply settled_not_null_like, lookup_settled; assumption.
Qed.

(** ** The two modes keep the same entries *)

Lemma store_entries_agree (k : jsstring) (v d d' : value) :
  is_object d = true -> is_object d' = true ->
  own_entries d = own_entries d' ->
  own_entries (store k v d) = own_entries (store k v d').
Proof.
  intros Hd Hd' E. rewrite !entries_store by assumption. rewrite E.
  reflexivity.
Qed.

Lemma fold_clean_entries_agree (keep : bool) (ps : props_t) :
  forall d d',
    is_object d = true -> is_object d' = true ->
    own_entries d = own_entries d' ->
    own_entries (fold_left (clean_step keep) ps d)
    = own_entries (fold_left (clean_step keep) ps d').
Proof.
  induction ps as [|[key val] ps IH]; intros d d' Hd Hd' E; simpl;
    [exact E|].
  apply IH; try (rewrite is_object_clean_step; assumption).
  rewrite !clean_step_cases. destruct (is_kept keep val); [|exact E].
  apply store_entries_agree; assumption.
Qed.

(** X17: for a document whose keys are, at every depth, keys an
    assignment stores as own properties on an object and on an array
    (none is [__proto__] or [length]), the flag [isArray] decides what
    kind of container the result is and nothing else: in array mode and
    in object mode [cleanNulls] keeps the same keys with the same
    values, in the same order. *)
Theorem cleanNulls_modes_agree (doc : value) (keep : bool) :
  plain_keys doc = true ->
  own_entries (cleanNulls doc true keep)
  = own_entries (cleanNulls doc false keep)
  /\ Array_isArray (cleanNulls doc true keep) = true
  /\ isBasicObject (cleanNulls doc false keep) = true.
Proof.
  intros _. split; [|split].
  - rewrite !cleanNulls_unfold.
    apply fold_clean_entries_agree; reflexivity.
  - destruct (cleanNulls_good doc true keep) as (Ha & _). exact Ha.
  - destruct (cleanNulls_good doc false keep) as (_ & Hb & _). exact Hb.
Qed.

Lemma cleanNulls_modes_agree_witness :
  own_entries (cleanNulls example_doc true false)
  = own_entries (cleanNulls example_doc false false).
Proof.
  exact (proj1 (cleanNulls_modes_agree example_doc false eq_refl)).
Defined.

(** ** A call that throws changes nothing *)



